(** * align: column alignment of delimited text

    A shallow embedding of [align.go] (package [align]) and the
    properties of its tokenizer, width analyzer, padding renderer and
    export loop.

    Conventions of the embedding.
    - A Go [string] / [[]byte] is a [list ascii] (a byte sequence);
      [len] is the byte length as a [Z].
    - Go [int] values are lengths, cursors and column numbers bounded
      by the size of the input; they are modelled in [Z].
    - [map[int]int] and [map[int]Justification] are [gmap Z Z].
    - The scanner is the list of the lines [Scan] yields until it first
      returns false (an input read to its end; what a scanner that
      stopped on an error yields afterwards is outside the model), the
      writer the sequence of bytes written so far, the padder
      ([fieldPad], a [bytes.Buffer]) the bytes it currently holds.
    - A [for] loop whose cursor the body advances is a fixpoint on a
      fuel; [None] is "still running when the fuel is spent". *)

From Stdlib Require Import ZArith List Ascii String Lia Bool.
From stdpp Require Import base option list gmap fin_maps strings.

Local Open Scope Z_scope.

(** ** Go strings and slices *)

Abbreviation gostring := (list ascii).

(** A string literal as a byte sequence. *)
Definition str (s : string) : gostring := list_ascii_of_string s.

Definition len {A : Type} (s : list A) : Z := Z.of_nat (length s).

(** [s[lo:]], [s[:hi]] and [s[lo:hi]]; every use in the source is in
    range. *)
Definition sliceFrom (s : gostring) (lo : Z) : gostring := drop (Z.to_nat lo) s.
Definition sliceTo (s : gostring) (hi : Z) : gostring := take (Z.to_nat hi) s.
Definition slice (s : gostring) (lo hi : Z) : gostring :=
  take (Z.to_nat (hi - lo)) (drop (Z.to_nat lo) s).

Definition newline : ascii := "010"%char.
Definition padchar : ascii := " "%char.

Definition byteVal (c : ascii) : Z := Z.of_nat (nat_of_ascii c).

(** ** The parts of Go's [unicode/utf8] and [strings] the code calls *)

Module utf8.

Definition RuneError : Z := 0xFFFD.

Definition between (lo hi : Z) (c : ascii) : bool :=
  (lo <=? byteVal c) && (byteVal c <=? hi).

(** The range the second byte must lie in, by leading byte. *)
Definition acceptLo (b0 : Z) : Z :=
  if b0 =? 0xE0 then 0xA0 else if b0 =? 0xF0 then 0x90 else 0x80.
Definition acceptHi (b0 : Z) : Z :=
  if b0 =? 0xED then 0x9F else if b0 =? 0xF4 then 0x8F else 0xBF.

(** [DecodeRuneInString]: the first rune of [s] and its width in
    bytes; an invalid encoding is [(RuneError, 1)]. *)
Definition DecodeRuneInString (s : gostring) : Z * Z :=
  match s with
  | [] => (RuneError, 0)
  | c0 :: s1 =>
    let b0 := byteVal c0 in
    if b0 <? 0x80 then (b0, 1)
    else if (b0 <? 0xC2) || (0xF4 <? b0) then (RuneError, 1)
    else match s1 with
    | [] => (RuneError, 1)
    | c1 :: s2 =>
      if negb (between (acceptLo b0) (acceptHi b0) c1) then (RuneError, 1)
      else if b0 <? 0xE0
      then (Z.lor (Z.shiftl (Z.land b0 0x1F) 6) (Z.land (byteVal c1) 0x3F), 2)
      else match s2 with
      | [] => (RuneError, 1)
      | c2 :: s3 =>
        if negb (between 0x80 0xBF c2) then (RuneError, 1)
        else if b0 <? 0xF0
        then (Z.lor (Z.shiftl (Z.land b0 0x0F) 12)
                (Z.lor (Z.shiftl (Z.land (byteVal c1) 0x3F) 6)
                   (Z.land (byteVal c2) 0x3F)), 3)
        else match s3 with
        | [] => (RuneError, 1)
        | c3 :: _ =>
          if negb (between 0x80 0xBF c3) then (RuneError, 1)
          else (Z.lor (Z.shiftl (Z.land b0 0x07) 18)
                  (Z.lor (Z.shiftl (Z.land (byteVal c1) 0x3F) 12)
                     (Z.lor (Z.shiftl (Z.land (byteVal c2) 0x3F) 6)
                        (Z.land (byteVal c3) 0x3F))), 4)
        end
      end
    end
  end.

(** The runes of a string, left to right. *)
Fixpoint runes (fuel : nat) (s : gostring) : list Z :=
  match fuel, s with
  | S f, _ :: _ =>
    let '(r, size) := DecodeRuneInString s in
    r :: runes f (sliceFrom s size)
  | _, _ => []
  end.

Definition RuneCountInString (s : gostring) : Z := len (runes (length s) s).

End utf8.

Module strings.

(** [strings.HasPrefix] *)
Fixpoint HasPrefix (s prefix : gostring) {struct prefix} : bool :=
  match prefix, s with
  | [], _ => true
  | _ :: _, [] => false
  | p :: prefix', c :: s' => bool_decide (c = p) && HasPrefix s' prefix'
  end.

(** [strings.Index]: the index of the first instance of [substr] in
    [s], or -1. *)
Fixpoint Index (s substr : gostring) : Z :=
  if HasPrefix s substr then 0
  else match s with
       | [] => -1
       | _ :: s' => let i := Index s' substr in if i =? -1 then -1 else i + 1
       end.

(** The loop of [strings.Count] for a non-empty [substr]: the
    non-overlapping instances, counted from the left. *)
Fixpoint countLoop (fuel : nat) (s substr : gostring) : Z :=
  match fuel with
  | O => 0
  | S f =>
    let i := Index s substr in
    if i =? -1 then 0
    else 1 + countLoop f (sliceFrom s (i + len substr)) substr
  end.

Definition Count (s substr : gostring) : Z :=
  match substr with
  | [] => utf8.RuneCountInString s + 1
  | _ :: _ => countLoop (S (length s)) s substr
  end.

(** [explode]: one string per UTF-8 sequence. *)
Fixpoint explode (fuel : nat) (s : gostring) : list gostring :=
  match fuel, s with
  | S f, _ :: _ =>
    let size := (utf8.DecodeRuneInString s).2 in
    sliceTo s size :: explode f (sliceFrom s size)
  | _, _ => []
  end.

(** The loop of [genSplit]: at most [n] cuts, then the rest. *)
Fixpoint splitLoop (n : nat) (s sep : gostring) : list gostring :=
  match n with
  | O => [s]
  | S n' =>
    let m := Index s sep in
    if m <? 0 then [s]
    else sliceTo s m :: splitLoop n' (sliceFrom s (m + len sep)) sep
  end.

(** [strings.Split(s, sep)] = [genSplit(s, sep, 0, -1)] *)
Definition Split (s sep : gostring) : list gostring :=
  match sep with
  | [] => explode (length s) s
  | _ :: _ => splitLoop (Z.to_nat (Count s sep)) s sep
  end.

End strings.

(** ** [github.com/mattn/go-runewidth]

    The display width of a string comes from a package outside the
    repository; the code is embedded over any implementation of it. *)

Class RuneWidth := StringWidth : gostring → Z.

(** A fragment of the package's table (its default, non East Asian
    condition), enough to evaluate the code on ASCII text and on the
    common wide blocks: control characters take no cell, CJK, Hangul
    and full-width forms take two, every other rune one. *)
Definition inRange (lo hi r : Z) : bool := (lo <=? r) && (r <=? hi).

Definition RuneWidthOf (r : Z) : Z :=
  if (r <? 0) || (0x10FFFF <? r) then 0
  else if r <? 0x20 then 0
  else if inRange 0x7F 0x9F r || (r =? 0xAD) then 0
  else if r <? 0x300 then 1
  else if inRange 0x300 0x36F r then 0
  else if inRange 0x1100 0x115F r || inRange 0x2E80 0x303E r
          || inRange 0x3041 0x33FF r || inRange 0x3400 0x4DBF r
          || inRange 0x4E00 0x9FFF r || inRange 0xA000 0xA4CF r
          || inRange 0xAC00 0xD7A3 r || inRange 0xF900 0xFAFF r
          || inRange 0xFE30 0xFE6F r || inRange 0xFF00 0xFF60 r
          || inRange 0xFFE0 0xFFE6 r || inRange 0x20000 0x3FFFD r
  then 2
  else 1.

Definition tableStringWidth (s : gostring) : Z :=
  foldr Z.add 0 (RuneWidthOf <$> utf8.runes (length s) s).

(** ** Types of the package *)

(** [type Justification byte]; the constants are [iota + 1]. *)
Abbreviation Justification := Z (only parsing).
Definition JustifyRight : Justification := 1.
Definition JustifyCenter : Justification := 2.
Definition JustifyLeft : Justification := 3.

Record TextQualifier := {
  On : bool;
  Qualifier : gostring
}.

(** The field [Justification] of the source is [justification] here
    (the type has the name). *)
Record PaddingOpts := {
  justification : Justification;
  ColumnOverride : gmap Z Z;
  Pad : Z
}.

(** [filterLen] is not a field here: the source assigns it only in
    [FilterColumns], together with [filter], as [len(c)]. *)
Record Align := {
  scanner : list gostring;
  writer : gostring;
  sep : gostring;
  sepOut : gostring;
  columnCounts : gmap Z Z;
  txtq : TextQualifier;
  padOpts : PaddingOpts;
  filter : list Z;
  lines : list gostring;
  padder : gostring
}.

Definition filterLen (a : Align) : Z := len (filter a).

Definition NewAlign (input : list gostring) (sep : gostring) (qu : TextQualifier) : Align :=
  {| scanner := input; writer := []; sep := sep; sepOut := sep;
     columnCounts := ∅; txtq := qu;
     padOpts := {| justification := JustifyLeft; ColumnOverride := ∅; Pad := 1 |};
     filter := []; lines := []; padder := [] |}.

Definition OutputSep (a : Align) (outsep : gostring) : Align :=
  {| scanner := scanner a; writer := writer a; sep := sep a; sepOut := outsep;
     columnCounts := columnCounts a; txtq := txtq a; padOpts := padOpts a;
     filter := filter a; lines := lines a; padder := padder a |}.

Definition UpdatePadding (a : Align) (p : PaddingOpts) : Align :=
  {| scanner := scanner a; writer := writer a; sep := sep a; sepOut := sepOut a;
     columnCounts := columnCounts a; txtq := txtq a; padOpts := p;
     filter := filter a; lines := lines a; padder := padder a |}.

Definition FilterColumns (a : Align) (c : list Z) : Align :=
  {| scanner := scanner a; writer := writer a; sep := sep a; sepOut := sepOut a;
     columnCounts := columnCounts a; txtq := txtq a; padOpts := padOpts a;
     filter := c; lines := lines a; padder := padder a |}.

(** A read [m[k]] of a Go map: the zero value when the key is absent. *)
Definition mapGet (m : gmap Z Z) (k : Z) : Z := default 0 (m !! k).

Definition columnSize (a : Align) (num : Z) : Z :=
  match columnCounts a !! num with
  | None => -1
  | Some _ => mapGet (columnCounts a) num
  end.

(** ** Tokenizer *)

Definition genFieldLen (s sep qual : gostring) : Z :=
  if bool_decide (qual = []) || negb (strings.HasPrefix s qual) then
    let i := strings.Index s sep in
    if i =? -1 then len s else len (sliceTo s i)
  else
    let i := strings.Index s (qual ++ sep) in
    if i =? -1 then len s else len (sliceTo s (i + len qual)).

Definition fieldLen (s sep : gostring) : Z := genFieldLen s sep [].

Definition fieldLenEscaped (s sep qual : gostring) : Z := genFieldLen s sep qual.

(** The loop of [splitWithQual] when the qualifier is on. *)
Fixpoint splitQualLoop (fuel : nat) (s sep qual : gostring) (start : Z)
    (words : list gostring) : option (list gostring) :=
  if start <? len s then
    match fuel with
    | O => None
    | S f =>
      let count := genFieldLen (sliceFrom s start) sep qual in
      splitQualLoop f s sep qual (start + (count + len sep))
        (words ++ [slice s start (start + count)])
    end
  else Some words.

Definition splitWithQual (a : Align) (s sep qual : gostring) : option (list gostring) :=
  if negb (On (txtq a)) then Some (strings.Split s sep)
  else splitQualLoop (length s) s sep qual 0 [].

Fixpoint contains (nums : list Z) (num : Z) : bool :=
  match nums with
  | [] => false
  | v :: nums' => if v =? num then true else contains nums' num
  end.

(** ** Column width analyzer *)

(** [if temp > a.columnCounts[columnNum] { a.columnCounts[columnNum] = temp }] *)
Definition recordWidth (counts : gmap Z Z) (columnNum temp : Z) : gmap Z Z :=
  if temp >? mapGet counts columnNum then <[columnNum := temp]> counts else counts.

(** The loop over the fields of one line; [flen] is the field-length
    function of the branch ([fieldLenEscaped] or [fieldLen]). *)
Fixpoint measureLoop (fuel : nat) (flen : gostring → Z) (line sep : gostring)
    (start columnNum : Z) (counts : gmap Z Z) : option (gmap Z Z) :=
  if start <? len line then
    match fuel with
    | O => None
    | S f =>
      let temp := flen (sliceFrom line start) in
      measureLoop f flen line sep (start + (temp + len sep)) (columnNum + 1)
        (recordWidth counts columnNum temp)
    end
  else Some counts.

Definition measureLine (a : Align) (line : gostring) (counts : gmap Z Z)
    : option (gmap Z Z) :=
  if On (txtq a)
  then measureLoop (length line)
         (fun s => fieldLenEscaped s (sep a) (Qualifier (txtq a))) line (sep a) 0 0 counts
  else measureLoop (length line) (fun s => fieldLen s (sep a)) line (sep a) 0 0 counts.

(** [for a.scanner.Scan() { ... }] *)
Fixpoint scanLoop (a : Align) (input : list gostring) (counts : gmap Z Z)
    (acc : list gostring) : option (gmap Z Z * list gostring) :=
  match input with
  | [] => Some (counts, acc)
  | line :: input' =>
    counts' ← measureLine a line counts;
    scanLoop a input' counts' (acc ++ [line])
  end.

Definition columnLength (a : Align) : option Align :=
  '(counts, ls) ← scanLoop a (scanner a) (columnCounts a) [];
  Some {| scanner := []; writer := writer a; sep := sep a; sepOut := sepOut a;
          columnCounts := counts; txtq := txtq a; padOpts := padOpts a;
          filter := filter a; lines := ls; padder := padder a |}.

(** ** Padding renderer *)

(** [for i := 0; i < length; i++ { padder.WriteByte(padchar) }] *)
Definition fillWithPadding (padder : gostring) (length : Z) : gostring :=
  padder ++ replicate (Z.to_nat length) padchar.

(** The padder after the call; the returned [padder.Bytes()] is its
    whole content. *)
Definition applyPadding (padder original surroundingPad : gostring)
    (columnNum padLength : Z) (just : Justification) : gostring :=
  let padder :=
    if (len surroundingPad >? 0) && (columnNum >? 0)
    then padder ++ surroundingPad else padder in
  let padder :=
    if just =? JustifyLeft then fillWithPadding (padder ++ original) padLength
    else if just =? JustifyRight then fillWithPadding padder padLength ++ original
    else if just =? JustifyCenter then
      if padLength >? 2
      then fillWithPadding
             (fillWithPadding padder (padLength - Z.quot padLength 2) ++ original)
             (Z.quot padLength 2)
      else fillWithPadding (padder ++ original) padLength
    else padder in
  if len surroundingPad >? 0 then padder ++ surroundingPad else padder.

Definition countPadding `{RuneWidth} (s : gostring) (count : Z) : Z :=
  let padLength := count - len s in
  let rCount := StringWidth s in
  let wordLen := len s in
  if rCount <? wordLen then padLength + (wordLen - rCount) else padLength.

(** ** Export *)

(** [for k, v := range a.padOpts.ColumnOverride { if k == columnNum+1 { j = v } }]
    over the entries in the order the iteration yields them. *)
Definition rangeOverride (entries : list (Z * Z)) (columnNum : Z)
    (j : Justification) : Justification :=
  fold_left (fun j kv => if kv.1 =? columnNum + 1 then kv.2 else j) entries j.

(** Lines 237-246 of [export]: the justification of a field. *)
Definition fieldJustification (p : PaddingOpts) (columnNum : Z) : Justification :=
  let j := justification p in
  if Z.of_nat (size (ColumnOverride p)) >? 0
  then rangeOverride (map_to_list (ColumnOverride p)) columnNum j
  else j.

(** [nums[i]]; in range at its only use. *)
Definition index (nums : list Z) (i : Z) : Z := default 0 (nums !! Z.to_nat i).

(** [for _, word := range words { ... }]: the writer and the padder
    after the row. [nwords] is [len(words)] of the whole row. *)
Fixpoint wordsLoop `{RuneWidth} (a : Align) (surroundingPad : gostring) (nwords : Z)
    (words : list gostring) (columnNum tempColumn : Z) (w p : gostring)
    : gostring * gostring :=
  match words with
  | [] => (w, p)
  | word :: rest =>
    if (filterLen a >? 0) && negb (contains (filter a) (columnNum + 1)) then
      let columnNum := columnNum + 1 in
      let w := if columnNum =? nwords then w ++ [newline] else w in
      wordsLoop a surroundingPad nwords rest columnNum tempColumn w p
    else
      let j := fieldJustification (padOpts a) columnNum in
      let padLength := countPadding word (mapGet (columnCounts a) columnNum) in
      let paddedWord := applyPadding p word surroundingPad tempColumn padLength j in
      let p := [] in
      let columnNum := columnNum + 1 in
      let tempColumn := tempColumn + 1 in
      if (filterLen a >? 0) && (index (filter a) (filterLen a - 1) =? columnNum)
         || (columnNum =? len paddedWord)
      then (w ++ paddedWord ++ [newline], p)
      else wordsLoop a surroundingPad nwords rest columnNum tempColumn
             (w ++ paddedWord ++ sepOut a) p
  end.

(** One iteration of [for _, line := range a.lines]. *)
Definition exportLine `{RuneWidth} (a : Align) (surroundingPad line : gostring)
    (w p : gostring) : option (gostring * gostring) :=
  words ← splitWithQual a line (sep a) (Qualifier (txtq a));
  Some (wordsLoop a surroundingPad (len words) words 0 0 w p).

Fixpoint linesLoop `{RuneWidth} (a : Align) (surroundingPad : gostring)
    (ls : list gostring) (w p : gostring) : option (gostring * gostring) :=
  match ls with
  | [] => Some (w, p)
  | line :: ls' =>
    '(w', p') ← exportLine a surroundingPad line w p;
    linesLoop a surroundingPad ls' w' p'
  end.

Definition clampPad (p : PaddingOpts) : PaddingOpts :=
  if Pad p <? 0
  then {| justification := justification p; ColumnOverride := ColumnOverride p; Pad := 0 |}
  else p.

Definition export `{RuneWidth} (a : Align) : option Align :=
  let opts := clampPad (padOpts a) in
  let surroundingPad := replicate (Z.to_nat (Pad opts)) padchar in
  let a := UpdatePadding a opts in
  '(w, p) ← linesLoop a surroundingPad (lines a) (writer a) (padder a);
  Some {| scanner := scanner a; writer := w; sep := sep a; sepOut := sepOut a;
          columnCounts := columnCounts a; txtq := txtq a; padOpts := padOpts a;
          filter := filter a; lines := lines a; padder := p |}.

(** The method [Align] of [*Align]. *)
Definition AlignAlign `{RuneWidth} (a : Align) : option Align :=
  a' ← columnLength a; export a'.

(** The bytes [Align] writes for the input [input] under the default
    options of [NewAlign]. *)
Definition alignOutput `{RuneWidth} (input : list gostring) (sep : gostring)
    (qu : TextQualifier) : option gostring :=
  writer <$> AlignAlign (NewAlign input sep qu).

(** ** Words of the specification *)

(** [sub] occurs in [s] at byte offset [i], with no occurrence before. *)
Definition firstAt (sub s : gostring) (i : Z) : Prop :=
  0 <= i ∧ sub `prefix_of` drop (Z.to_nat i) s
  ∧ ∀ j, 0 <= j < i → ¬ sub `prefix_of` drop (Z.to_nat j) s.

(** [sub] occurs nowhere in [s]. *)
Definition absent (sub s : gostring) : Prop :=
  ∀ j : nat, ¬ sub `prefix_of` drop j s.

(** The fields a cursor loop visits, as a recursion on the text that
    is left: the field at the head of [rest], then the fields after
    one separator. With [length rest <= fuel] the fuel is never spent. *)
Fixpoint fieldsFrom (fuel : nat) (flen : gostring → Z) (sep rest : gostring)
    : list gostring :=
  match fuel, rest with
  | S f, _ :: _ =>
    let count := flen rest in
    sliceTo rest count :: fieldsFrom f flen sep (sliceFrom rest (count + len sep))
  | _, _ => []
  end.

Definition fieldsOf (flen : gostring → Z) (sep s : gostring) : list gostring :=
  fieldsFrom (length s) flen sep s.

(** The widths of consecutive fields recorded from column [columnNum] on. *)
Fixpoint recordAll (counts : gmap Z Z) (columnNum : Z) (temps : list Z) : gmap Z Z :=
  match temps with
  | [] => counts
  | temp :: temps' => recordAll (recordWidth counts columnNum temp) (columnNum + 1) temps'
  end.

(** The byte length of the field at column [k] of a row, 0 when the
    row has no such field. *)
Definition widthAt (row : list gostring) (k : Z) : Z :=
  if k <? 0 then 0 else default 0 (len <$> row !! Z.to_nat k).

(** Every recorded width is positive. *)
Definition positiveWidths (counts : gmap Z Z) : Prop :=
  ∀ k v, counts !! k = Some v → 0 < v.

(** The field-length function of the tokenizer in the mode of [a]. *)
Definition fieldLenOf (a : Align) (sep qual : gostring) : gostring → Z :=
  if On (txtq a) then (fun r => genFieldLen r sep qual) else (fun r => fieldLen r sep).

(** The byte length of the field the measuring loop finds at column
    [k] of [line], and its maximum over the lines of [input]. *)
Definition rowWidth (a : Align) (line : gostring) (k : Z) : Z :=
  widthAt (fieldsOf (fieldLenOf a (sep a) (Qualifier (txtq a))) (sep a) line) k.

Definition maxWidth (a : Align) (input : list gostring) (k : Z) : Z :=
  foldr Z.max 0 ((fun line => rowWidth a line k) <$> input).

(** The display width in the words of the specification: the byte
    length plus a correction that, when the rendered width differs
    from the length, adds the difference. *)
Definition specDisplayWidth `{RuneWidth} (s : gostring) : Z :=
  len s + (if StringWidth s =? len s then 0 else StringWidth s - len s).

(** Configurations and inputs of the examples. *)
Definition qualOff : TextQualifier := {| On := false; Qualifier := [] |}.
Definition qualOn : TextQualifier := {| On := true; Qualifier := str "'" |}.

(** U+4E16, three bytes in UTF-8, two cells wide. *)
Definition wideGlyph : gostring := ["228"%char; "184"%char; "150"%char].

(** ** More of the package, and words to state its properties *)

(** [leadingPad] and [trailingPad]: [for i := 0; i < padLen; i++
    { sb.WriteByte(padchar) }], as the number of iterations of the
    loop; the builder is the bytes it holds. *)
Fixpoint padLoop (iterations : nat) (sb : gostring) : gostring :=
  match iterations with
  | O => sb
  | S n => padLoop n (sb ++ [padchar])
  end.

Definition leadingPad (sb : gostring) (padLen : Z) : gostring :=
  padLoop (Z.to_nat padLen) sb.

Definition trailingPad (sb : gostring) (padLen : Z) : gostring :=
  padLoop (Z.to_nat padLen) sb.

(** The elements of a list joined by a separator, as [strings.Join]. *)
Fixpoint Join (elems : list gostring) (sep : gostring) : gostring :=
  match elems with
  | [] => []
  | x :: rest =>
    match rest with
    | [] => x
    | _ :: _ => x ++ sep ++ Join rest sep
    end
  end.

(** The padded fields of a row in which every field is rendered: the
    first one is built in the padder as it is, the others in the
    padder after its reset. *)
Fixpoint paddedFields `{RuneWidth} (a : Align) (surroundingPad : gostring)
    (words : list gostring) (columnNum tempColumn : Z) (p : gostring)
    : list gostring :=
  match words with
  | [] => []
  | word :: rest =>
    applyPadding p word surroundingPad tempColumn
      (countPadding word (mapGet (columnCounts a) columnNum))
      (fieldJustification (padOpts a) columnNum)
    :: paddedFields a surroundingPad rest (columnNum + 1) (tempColumn + 1) []
  end.

(** The width table of a fresh [Align] over [input] after its
    measuring pass. *)
Definition widthsOf (input : list gostring) (sep : gostring) (qu : TextQualifier)
    : option (gmap Z Z) :=
  columnCounts <$> columnLength (NewAlign input sep qu).

(** The state [a] with other stored lines, and with other contents of
    the writer and the padder; the two outputs of a pass of [export]. *)
Definition withLines (a : Align) (ls : list gostring) : Align :=
  {| scanner := scanner a; writer := writer a; sep := sep a; sepOut := sepOut a;
     columnCounts := columnCounts a; txtq := txtq a; padOpts := padOpts a;
     filter := filter a; lines := ls; padder := padder a |}.

Definition withBuffers (a : Align) (w p : gostring) : Align :=
  {| scanner := scanner a; writer := w; sep := sep a; sepOut := sepOut a;
     columnCounts := columnCounts a; txtq := txtq a; padOpts := padOpts a;
     filter := filter a; lines := lines a; padder := p |}.

Definition outputs (a : Align) : gostring * gostring := (writer a, padder a).

(** Two states with the same configuration and width table. *)
Definition sameConfig (a b : Align) : Prop :=
  sep a = sep b ∧ sepOut a = sepOut b ∧ columnCounts a = columnCounts b
  ∧ txtq a = txtq b ∧ padOpts a = padOpts b ∧ filter a = filter b.

(** The field at 0-based column [columnNum] passes the filter; some
    field of a row that starts at [columnNum] does. *)
Definition retains (a : Align) (columnNum : Z) : bool :=
  negb ((filterLen a >? 0) && negb (contains (filter a) (columnNum + 1))).

Fixpoint rowRetains (a : Align) (columnNum : Z) (words : list gostring) : bool :=
  match words with
  | [] => false
  | _ :: rest => retains a columnNum || rowRetains a (columnNum + 1) rest
  end.

(** * Properties *)

(** ** Lengths and slices *)

Lemma len_nonneg {A} (s : list A) : 0 <= len s.
Proof. unfold len. lia. Qed.

Lemma len_app {A} (s t : list A) : len (s ++ t) = len s + len t.
Proof. unfold len. rewrite length_app. lia. Qed.

Lemma len_nil_iff {A} (s : list A) : len s = 0 ↔ s = [].
Proof.
  unfold len. split.
  - destruct s; [done | simpl; lia].
  - by intros ->.
Qed.

Lemma len_sliceTo (s : gostring) (i : Z) :
  0 <= i <= len s → len (sliceTo s i) = i.
Proof. unfold len, sliceTo. intros Hi. rewrite length_take. lia. Qed.

Lemma sliceFrom_0 (s : gostring) : sliceFrom s 0 = s.
Proof. done. Qed.

Lemma sliceFrom_ge (s : gostring) (i : Z) : len s <= i → sliceFrom s i = [].
Proof. unfold len, sliceFrom. intros Hi. apply drop_ge. lia. Qed.

(** ** [strings.HasPrefix] and [strings.Index] *)

Lemma HasPrefix_spec (s p : gostring) :
  strings.HasPrefix s p = true ↔ p `prefix_of` s.
Proof.
  revert s. induction p as [|c p IH]; intros s; simpl.
  - split; [intros _; apply prefix_nil | done].
  - destruct s as [|d s].
    + split; [done | intros H; by apply prefix_nil_not in H].
    + rewrite andb_true_iff, bool_decide_eq_true, IH. split.
      * intros [-> H]. by apply prefix_cons.
      * intros H. split; [symmetry; by apply prefix_cons_inv_1 in H
                         | by apply prefix_cons_inv_2 in H].
  Qed.

Lemma HasPrefix_false (s p : gostring) :
  strings.HasPrefix s p = false ↔ ¬ p `prefix_of` s.
Proof. rewrite <- HasPrefix_spec. by destruct (strings.HasPrefix s p). Qed.

Lemma prefix_len (p s : gostring) : p `prefix_of` s → len p <= len s.
Proof. intros H. apply prefix_length in H. unfold len. lia. Qed.

Lemma Index_range (s sub : gostring) : -1 <= strings.Index s sub <= len s.
Proof.
  induction s as [|c s IH]; simpl.
  - destruct (strings.HasPrefix [] sub); unfold len; simpl; lia.
  - destruct (strings.HasPrefix (c :: s) sub); [unfold len; simpl; lia|].
    destruct (Z.eqb_spec (strings.Index s sub) (-1)); unfold len in *; simpl; lia.
Qed.

Lemma Index_absent (s sub : gostring) : strings.Index s sub = -1 → absent sub s.
Proof.
  induction s as [|c s IH]; simpl.
  - destruct (strings.HasPrefix [] sub) eqn:E; [done|]. intros _ j.
    rewrite drop_nil. by apply HasPrefix_false.
  - destruct (strings.HasPrefix (c :: s) sub) eqn:E; [done|].
    destruct (Z.eqb_spec (strings.Index s sub) (-1)) as [Hi|Hi].
    + intros _ [|j]; simpl; [by apply HasPrefix_false | by apply IH].
    + pose proof (Index_range s sub). lia.
Qed.

Lemma Index_found (s sub : gostring) :
  strings.Index s sub ≠ -1 → firstAt sub s (strings.Index s sub).
Proof.
  induction s as [|c s IH]; simpl.
  - destruct (strings.HasPrefix [] sub) eqn:E; [|done]. intros _.
    split; [lia|]. split; [by apply HasPrefix_spec | lia].
  - destruct (strings.HasPrefix (c :: s) sub) eqn:E.
    + intros _. split; [lia|]. split; [by apply HasPrefix_spec | lia].
    + destruct (Z.eqb_spec (strings.Index s sub) (-1)) as [Hi|Hi]; [done|].
      intros _. destruct (IH Hi) as (H0 & Hp & Hlt).
      split; [lia|]. split.
      * replace (Z.to_nat (strings.Index s sub + 1))
          with (S (Z.to_nat (strings.Index s sub))) by lia. done.
      * intros j Hj. destruct (decide (j = 0)) as [->|Hne].
        { simpl. by apply HasPrefix_false. }
        replace (Z.to_nat j) with (S (Z.to_nat (j - 1))) by lia. simpl.
        apply Hlt. lia.
Qed.

Lemma firstAt_unique (sub s : gostring) (i j : Z) :
  firstAt sub s i → firstAt sub s j → i = j.
Proof.
  intros (Hi & Pi & Li) (Hj & Pj & Lj).
  destruct (Z.lt_trichotomy i j) as [H|[H|H]]; [|done|].
  - exfalso. apply (Lj i); [lia | done].
  - exfalso. apply (Li j); [lia | done].
Qed.

Lemma firstAt_not_absent (sub s : gostring) (i : Z) :
  firstAt sub s i → ¬ absent sub s.
Proof. intros (_ & Hp & _) Ha. exact (Ha _ Hp). Qed.

Lemma firstAt_bound (sub s : gostring) (i : Z) :
  firstAt sub s i → i + len sub <= len s.
Proof.
  intros (H0 & Hp & Hlt).
  pose proof (prefix_len _ _ Hp) as Hl. unfold len in *.
  rewrite length_drop in Hl.
  destruct (decide (Z.to_nat i ≤ length s)%nat); [lia|].
  exfalso. apply (Hlt 0); [lia|]. simpl.
  assert (sub = []) as ->; [|apply prefix_nil].
  destruct sub; [done|]. simpl in Hl. lia.
Qed.

(** [strings.Index] decides between the two cases. *)
Lemma Index_spec (s sub : gostring) :
  (strings.Index s sub = -1 ∧ absent sub s)
  ∨ (strings.Index s sub ≠ -1 ∧ firstAt sub s (strings.Index s sub)).
Proof.
  destruct (decide (strings.Index s sub = -1)) as [H|H].
  - left. split; [done | by apply Index_absent].
  - right. split; [done | by apply Index_found].
Qed.

Lemma Index_firstAt (s sub : gostring) (i : Z) :
  firstAt sub s i → strings.Index s sub = i.
Proof.
  intros H. destruct (Index_spec s sub) as [[_ Ha]|[_ Hf]].
  - by apply firstAt_not_absent in H.
  - by apply (firstAt_unique sub s).
Qed.

Lemma Index_absent_iff (s sub : gostring) :
  strings.Index s sub = -1 ↔ absent sub s.
Proof.
  split; [apply Index_absent|]. intros Ha.
  destruct (Index_spec s sub) as [[H _]|[_ Hf]]; [done|].
  by apply firstAt_not_absent in Hf.
Qed.

(** ** The length of one field *)

Lemma genFieldLen_plain (s sep qual : gostring) :
  qual = [] ∨ ¬ qual `prefix_of` s →
  genFieldLen s sep qual =
    if strings.Index s sep =? -1 then len s else strings.Index s sep.
Proof.
  intros H. unfold genFieldLen.
  assert (bool_decide (qual = []) || negb (strings.HasPrefix s qual) = true) as ->.
  { destruct H as [->|H]; [done|].
    apply HasPrefix_false in H. rewrite H. apply orb_true_r. }
  destruct (Z.eqb_spec (strings.Index s sep) (-1)) as [E|E]; [done|].
  apply len_sliceTo. destruct (Index_found _ _ E) as (? & _ & _).
  pose proof (Index_range s sep). lia.
Qed.

Lemma genFieldLen_qualified (s sep qual : gostring) :
  qual `prefix_of` s →
  genFieldLen s sep qual =
    if strings.Index s (qual ++ sep) =? -1 then len s
    else strings.Index s (qual ++ sep) + len qual.
Proof.
  intros H. destruct (decide (qual = [])) as [->|Hq].
  - rewrite genFieldLen_plain by auto. simpl.
    destruct (_ =? _); [done | unfold len; simpl; lia].
  - unfold genFieldLen. rewrite bool_decide_eq_false_2 by done.
    apply HasPrefix_spec in H. rewrite H. simpl.
    destruct (Z.eqb_spec (strings.Index s (qual ++ sep)) (-1)) as [E|E]; [done|].
    apply len_sliceTo. pose proof (Index_found _ _ E) as Hf.
    pose proof (firstAt_bound _ _ _ Hf) as Hb. rewrite len_app in Hb.
    destruct Hf as (? & _ & _).
    pose proof (len_nonneg qual). pose proof (len_nonneg sep). lia.
Qed.

Lemma genFieldLen_range (s sep qual : gostring) :
  0 <= genFieldLen s sep qual <= len s.
Proof.
  destruct (decide (qual `prefix_of` s)) as [H|H].
  - rewrite genFieldLen_qualified by done.
    destruct (Z.eqb_spec (strings.Index s (qual ++ sep)) (-1)) as [E|E].
    + pose proof (len_nonneg s). lia.
    + pose proof (Index_found _ _ E) as Hf.
      pose proof (firstAt_bound _ _ _ Hf) as Hb. rewrite len_app in Hb.
      destruct Hf as (? & _ & _).
      pose proof (len_nonneg qual). pose proof (len_nonneg sep). lia.
  - rewrite genFieldLen_plain by auto.
    destruct (Z.eqb_spec (strings.Index s sep) (-1)) as [E|E].
    + pose proof (len_nonneg s). lia.
    + pose proof (Index_range s sep). lia.
Qed.

(** C4. The length [genFieldLen] returns. When the qualifier is empty
    (what [fieldLen] passes when qualifiers are off) or [s] does not
    begin with it, the result is the offset of the first occurrence of
    [sep] in [s], and [len s] when [sep] does not occur. When [s]
    begins with [qual], the result is the offset of the first
    occurrence of [qual ++ sep] plus [len qual] (the field runs up to
    and including that qualifier), and [len s] when [qual ++ sep] does
    not occur. *)
Theorem genFieldLen_spec (s sep qual : gostring) :
  (qual = [] ∨ ¬ qual `prefix_of` s →
     (absent sep s ∧ genFieldLen s sep qual = len s)
     ∨ (∃ i, firstAt sep s i ∧ genFieldLen s sep qual = i))
  ∧ (qual `prefix_of` s →
     (absent (qual ++ sep) s ∧ genFieldLen s sep qual = len s)
     ∨ (∃ i, firstAt (qual ++ sep) s i ∧ genFieldLen s sep qual = i + len qual)).
Proof.
  split; intros H.
  - rewrite genFieldLen_plain by done.
    destruct (Index_spec s sep) as [[E Ha]|[E Hf]].
    + left. rewrite E. done.
    + right. exists (strings.Index s sep). split; [done|].
      by apply Z.eqb_neq in E as ->.
  - rewrite genFieldLen_qualified by done.
    destruct (Index_spec s (qual ++ sep)) as [[E Ha]|[E Hf]].
    + left. rewrite E. done.
    + right. exists (strings.Index s (qual ++ sep)). split; [done|].
      by apply Z.eqb_neq in E as ->.
Qed.

(** The field ['a,b'] of the line ['a,b',c], and the field [a] of the
    line [a,b]. *)
Lemma genFieldLen_spec_witness :
  ((absent (str "'" ++ str ",") (str "'a,b',c")
    ∧ genFieldLen (str "'a,b',c") (str ",") (str "'") = len (str "'a,b',c"))
   ∨ (∃ i, firstAt (str "'" ++ str ",") (str "'a,b',c") i
        ∧ genFieldLen (str "'a,b',c") (str ",") (str "'") = i + len (str "'")))
  ∧ ((absent (str ",") (str "a,b")
      ∧ genFieldLen (str "a,b") (str ",") [] = len (str "a,b"))
     ∨ (∃ i, firstAt (str ",") (str "a,b") i
          ∧ genFieldLen (str "a,b") (str ",") [] = i)).
Proof.
  split.
  - apply (proj2 (genFieldLen_spec (str "'a,b',c") (str ",") (str "'"))).
    exists (str "a,b',c"). reflexivity.
  - apply (proj1 (genFieldLen_spec (str "a,b") (str ",") [])).
    left. reflexivity.
Defined.

(** ** The cursor loops visit [fieldsFrom] *)

Lemma sliceFrom_sliceFrom (s : gostring) (a b : Z) :
  0 <= a → 0 <= b → sliceFrom (sliceFrom s a) b = sliceFrom s (a + b).
Proof.
  intros Ha Hb. unfold sliceFrom. rewrite drop_drop. f_equal. lia.
Qed.

Lemma slice_sliceFrom (s : gostring) (start count : Z) :
  slice s start (start + count) = sliceTo (sliceFrom s start) count.
Proof. unfold slice, sliceTo, sliceFrom. do 2 f_equal. lia. Qed.

Lemma cursor_inside (s : gostring) (start : Z) :
  0 <= start → (start <? len s) = true ↔ sliceFrom s start ≠ [].
Proof.
  intros H0. unfold len, sliceFrom. rewrite Z.ltb_lt. split.
  - intros Hlt E. apply (f_equal length) in E. rewrite length_drop in E.
    simpl in E. lia.
  - intros Hne. destruct (decide (Z.to_nat start < length s)%nat); [lia|].
    exfalso. apply Hne. apply drop_ge. lia.
Qed.

Lemma cursor_outside (s : gostring) (start : Z) :
  0 <= start → sliceFrom s start = [] → (start <? len s) = false.
Proof.
  intros H0 E. destruct (start <? len s) eqn:Hlt; [|done].
  by apply cursor_inside in Hlt.
Qed.

Lemma length_sliceFrom_step (rest sep : gostring) (count : Z) :
  rest ≠ [] → sep ≠ [] → 0 <= count →
  (length (sliceFrom rest (count + len sep)) < length rest)%nat.
Proof.
  intros Hr Hs Hc. unfold sliceFrom, len. rewrite length_drop.
  destruct rest; [done|]. destruct sep; [done|]. simpl. lia.
Qed.

Lemma fieldsFrom_fuel (flen : gostring → Z) (sep : gostring) (f1 f2 : nat)
    (rest : gostring) :
  sep ≠ [] → (∀ r, 0 <= flen r) →
  (length rest ≤ f1)%nat → (length rest ≤ f2)%nat →
  fieldsFrom f1 flen sep rest = fieldsFrom f2 flen sep rest.
Proof.
  intros Hs Hf. revert f2 rest.
  induction f1 as [|f1 IH]; intros f2 rest H1 H2.
  - destruct rest; [|simpl in H1; lia]. by destruct f2.
  - destruct rest as [|c rest]; [by destruct f2|].
    destruct f2 as [|f2]; [simpl in H2; lia|].
    cbn [fieldsFrom]. f_equal.
    pose proof (length_sliceFrom_step (c :: rest) sep (flen (c :: rest))
                  ltac:(done) Hs (Hf _)).
    apply IH; lia.
Qed.

Lemma splitQualLoop_fields (fuel : nat) (s sep qual : gostring) (start : Z)
    (words : list gostring) :
  sep ≠ [] → 0 <= start → (length (sliceFrom s start) ≤ fuel)%nat →
  splitQualLoop fuel s sep qual start words
  = Some (words ++ fieldsFrom fuel (fun r => genFieldLen r sep qual) sep
                     (sliceFrom s start)).
Proof.
  intros Hs. revert start words.
  induction fuel as [|f IH]; intros start words H0 Hl.
  - assert (sliceFrom s start = []) as E by (apply length_zero_iff_nil; lia).
    cbn [splitQualLoop]. rewrite (cursor_outside _ _ H0 E), E.
    by rewrite app_nil_r.
  - cbn [splitQualLoop]. destruct (sliceFrom s start) as [|c rest] eqn:E.
    + rewrite (cursor_outside _ _ H0 E). by rewrite app_nil_r.
    + assert ((start <? len s) = true) as ->.
      { apply cursor_inside; [done|]. by rewrite E. }
      pose proof (genFieldLen_range (c :: rest) sep qual) as Hr.
      pose proof (len_nonneg sep).
      pose proof (length_sliceFrom_step (c :: rest) sep
                    (genFieldLen (c :: rest) sep qual) ltac:(done) Hs
                    ltac:(lia)) as Hstep.
      set (n := genFieldLen (c :: rest) sep qual) in *.
      rewrite IH; [| lia | ].
      * rewrite <- app_assoc. cbn [fieldsFrom app]. do 3 f_equal.
        -- by rewrite slice_sliceFrom, E.
        -- fold n. rewrite <- E. by rewrite sliceFrom_sliceFrom by lia.
      * rewrite <- sliceFrom_sliceFrom by lia. rewrite E. lia.
Qed.

Lemma measureLoop_fields (fuel : nat) (flen : gostring → Z) (line sep : gostring)
    (start columnNum : Z) (counts : gmap Z Z) :
  sep ≠ [] → (∀ r, 0 <= flen r <= len r) →
  0 <= start → (length (sliceFrom line start) ≤ fuel)%nat →
  measureLoop fuel flen line sep start columnNum counts
  = Some (recordAll counts columnNum
            (len <$> fieldsFrom fuel flen sep (sliceFrom line start))).
Proof.
  intros Hs Hf. revert start columnNum counts.
  induction fuel as [|f IH]; intros start columnNum counts H0 Hl.
  - assert (sliceFrom line start = []) as E by (apply length_zero_iff_nil; lia).
    cbn [measureLoop]. by rewrite (cursor_outside _ _ H0 E), E.
  - cbn [measureLoop]. destruct (sliceFrom line start) as [|c rest] eqn:E.
    + by rewrite (cursor_outside _ _ H0 E).
    + assert ((start <? len line) = true) as ->.
      { apply cursor_inside; [done|]. by rewrite E. }
      pose proof (Hf (c :: rest)) as Hr. pose proof (len_nonneg sep).
      pose proof (length_sliceFrom_step (c :: rest) sep (flen (c :: rest))
                    ltac:(done) Hs ltac:(lia)) as Hstep.
      set (n := flen (c :: rest)) in *.
      rewrite IH; [| lia | ].
      * cbn [fieldsFrom fmap list_fmap recordAll].
        fold n. rewrite (len_sliceTo _ _ Hr).
        rewrite <- E. by rewrite sliceFrom_sliceFrom by lia.
      * rewrite <- sliceFrom_sliceFrom by lia. rewrite E. lia.
Qed.

(** ** [strings.Split] and the cursor loop *)

Lemma fieldsFrom_nil (fuel : nat) (flen : gostring → Z) (sep : gostring) :
  fieldsFrom fuel flen sep [] = [].
Proof. by destruct fuel. Qed.

Lemma sliceTo_all (s : gostring) : sliceTo s (len s) = s.
Proof. unfold sliceTo, len. apply take_ge. lia. Qed.

Lemma countLoop_nonneg (fuel : nat) (s sub : gostring) :
  0 <= strings.countLoop fuel s sub.
Proof.
  revert s. induction fuel as [|f IH]; intros s; cbn [strings.countLoop]; [lia|].
  destruct (_ =? _); [lia|]. specialize (IH (sliceFrom s (strings.Index s sub + len sub))).
  lia.
Qed.

Lemma fieldLen_range (sep r : gostring) : 0 <= fieldLen r sep <= len r.
Proof. apply genFieldLen_range. Qed.

Lemma fieldLen_absent (s sep : gostring) :
  strings.Index s sep = -1 → fieldLen s sep = len s.
Proof. intros E. unfold fieldLen. rewrite genFieldLen_plain by auto. by rewrite E. Qed.

Lemma fieldLen_found (s sep : gostring) :
  strings.Index s sep ≠ -1 → fieldLen s sep = strings.Index s sep.
Proof.
  intros E. unfold fieldLen. rewrite genFieldLen_plain by auto.
  by apply Z.eqb_neq in E as ->.
Qed.

(** The cut count of [genSplit] never stops the split early: what
    [strings.Split] returns is the fields of the cursor loop, followed
    by one empty string when the text is empty or a separator ends it. *)
Lemma splitLoop_fields (fuel : nat) (s sep : gostring) :
  sep ≠ [] → (length s < fuel)%nat →
  ∃ tail, strings.splitLoop (Z.to_nat (strings.countLoop fuel s sep)) s sep
          = fieldsFrom fuel (fun r => fieldLen r sep) sep s ++ tail
        ∧ (tail = [] ∨ tail = [[]]).
Proof.
  intros Hs. revert s. induction fuel as [|f IH]; intros s Hl; [lia|].
  cbn [strings.countLoop].
  destruct (Z.eqb_spec (strings.Index s sep) (-1)) as [E|E].
  - cbn [Z.to_nat strings.splitLoop]. destruct s as [|c s].
    + exists [[]]. by split; [|right].
    + exists []. split; [|by left]. cbn [fieldsFrom].
      rewrite (fieldLen_absent _ _ E), sliceTo_all.
      rewrite sliceFrom_ge by (pose proof (len_nonneg sep); lia).
      by rewrite fieldsFrom_nil.
  - pose proof (Index_found _ _ E) as Hf.
    pose proof (firstAt_bound _ _ _ Hf) as Hb. destruct Hf as (H0 & _ & _).
    assert (0 < len sep) as Hsep.
    { destruct sep; [done|]. unfold len. simpl. lia. }
    set (s' := sliceFrom s (strings.Index s sep + len sep)).
    assert (length s' < length s)%nat as Hlt.
    { unfold s', sliceFrom. rewrite length_drop. unfold len in *. lia. }
    destruct (IH s' ltac:(lia)) as (tail & Heq & Htail).
    exists tail. split; [|done].
    pose proof (countLoop_nonneg f s' sep).
    replace (Z.to_nat (1 + strings.countLoop f s' sep))
      with (S (Z.to_nat (strings.countLoop f s' sep))) by lia.
    cbn [strings.splitLoop].
    assert ((strings.Index s sep <? 0) = false) as -> by lia.
    fold s'. rewrite Heq. subst s'.
    destruct s as [|c s]; [unfold len in *; simpl in *; lia|].
    cbn [fieldsFrom]. by rewrite (fieldLen_found _ _ E).
Qed.

Lemma Split_fields (s sep : gostring) :
  sep ≠ [] →
  ∃ tail, strings.Split s sep = fieldsOf (fun r => fieldLen r sep) sep s ++ tail
        ∧ (tail = [] ∨ tail = [[]]).
Proof.
  intros Hs. unfold fieldsOf.
  destruct (splitLoop_fields (S (length s)) s sep Hs ltac:(lia))
    as (tail & Heq & Htail).
  exists tail. split; [|done].
  assert (strings.Split s sep
          = strings.splitLoop
              (Z.to_nat (strings.countLoop (S (length s)) s sep)) s sep) as ->
    by (by destruct sep).
  rewrite Heq. f_equal.
  apply fieldsFrom_fuel; [done | | lia | lia].
  intros r. apply fieldLen_range.
Qed.

(** What [splitWithQual] returns, in either mode, for a non-empty
    separator. *)
Lemma splitWithQual_fields (a : Align) (s sep qual : gostring) :
  sep ≠ [] →
  ∃ tail, splitWithQual a s sep qual
          = Some (fieldsOf (fieldLenOf a sep qual) sep s ++ tail)
        ∧ (tail = [] ∨ (On (txtq a) = false ∧ tail = [[]])).
Proof.
  intros Hs. unfold splitWithQual, fieldLenOf. destruct (On (txtq a)); simpl.
  - exists []. split; [|by left].
    rewrite splitQualLoop_fields by (rewrite ?sliceFrom_0; done || lia).
    by rewrite sliceFrom_0, app_nil_r.
  - destruct (Split_fields s sep Hs) as (tail & -> & [->| ->]).
    + exists []. by split; [|left].
    + exists [[]]. by split; [|right].
Qed.

(** ** The width table *)

Lemma mapGet_nonneg (counts : gmap Z Z) (k : Z) :
  positiveWidths counts → 0 <= mapGet counts k.
Proof.
  intros Hp. unfold mapGet. destruct (counts !! k) as [v|] eqn:E; simpl; [|lia].
  specialize (Hp _ _ E). lia.
Qed.

Lemma mapGet_recordWidth (counts : gmap Z Z) (c temp k : Z) :
  mapGet (recordWidth counts c temp) k
  = if decide (k = c) then Z.max (mapGet counts c) temp else mapGet counts k.
Proof.
  unfold recordWidth. destruct (Z.gtb_spec temp (mapGet counts c)) as [H|H].
  - unfold mapGet at 1. rewrite lookup_insert. destruct (decide (k = c)) as [->|Hne].
    + rewrite decide_True by done. simpl. lia.
    + rewrite decide_False by done. done.
  - destruct (decide (k = c)) as [->|Hne]; [lia | done].
Qed.

Lemma positiveWidths_recordWidth (counts : gmap Z Z) (c temp : Z) :
  positiveWidths counts → positiveWidths (recordWidth counts c temp).
Proof.
  intros Hp. unfold recordWidth.
  destruct (Z.gtb_spec temp (mapGet counts c)) as [H|H]; [|done].
  pose proof (mapGet_nonneg counts c Hp). intros k v.
  rewrite lookup_insert. destruct (decide (c = k)); [|apply Hp].
  intros [= <-]. lia.
Qed.

Lemma positiveWidths_recordAll (temps : list Z) (counts : gmap Z Z) (c : Z) :
  positiveWidths counts → positiveWidths (recordAll counts c temps).
Proof.
  revert counts c. induction temps as [|t temps IH]; intros counts c Hp; [done|].
  simpl. by apply IH, positiveWidths_recordWidth.
Qed.

Lemma widthAt_nonneg (row : list gostring) (k : Z) : 0 <= widthAt row k.
Proof.
  unfold widthAt. destruct (k <? 0); [lia|].
  destruct (row !! Z.to_nat k); simpl; [apply len_nonneg | lia].
Qed.

Lemma widthAt_cons (w : gostring) (row : list gostring) (k : Z) :
  widthAt (w :: row) k = if decide (k = 0) then len w else widthAt row (k - 1).
Proof.
  unfold widthAt. destruct (decide (k = 0)) as [->|Hne]; [done|].
  destruct (Z.ltb_spec k 0) as [H|H].
  - by assert ((k - 1 <? 0) = true) as -> by lia.
  - assert ((k - 1 <? 0) = false) as -> by lia.
    by replace (Z.to_nat k) with (S (Z.to_nat (k - 1))) by lia.
Qed.

Lemma widthAt_app_empty (row : list gostring) (k : Z) :
  widthAt (row ++ [[]]) k = widthAt row k.
Proof.
  unfold widthAt. destruct (k <? 0); [done|].
  destruct (decide (Z.to_nat k < length row)%nat) as [H|H].
  - by rewrite lookup_app_l.
  - rewrite lookup_app_r by lia. rewrite (lookup_ge_None_2 row) by lia.
    by destruct (Z.to_nat k - length row)%nat.
Qed.

Lemma mapGet_recordAll (row : list gostring) (counts : gmap Z Z) (c k : Z) :
  positiveWidths counts →
  mapGet (recordAll counts c (len <$> row)) k
  = Z.max (mapGet counts k) (widthAt row (k - c)).
Proof.
  revert counts c. induction row as [|w row IH]; intros counts c Hp.
  - simpl. pose proof (mapGet_nonneg counts k Hp).
    unfold widthAt. destruct (k - c <? 0); simpl; lia.
  - cbn [fmap list_fmap recordAll].
    rewrite IH by by apply positiveWidths_recordWidth.
    rewrite mapGet_recordWidth, widthAt_cons.
    pose proof (len_nonneg w). pose proof (mapGet_nonneg counts c Hp).
    destruct (decide (k = c)) as [->|Hne].
    + rewrite decide_True by lia.
      replace (c - (c + 1)) with (-1) by lia.
      change (widthAt row (-1)) with 0. lia.
    + rewrite decide_False by lia.
      by replace (k - (c + 1)) with (k - c - 1) by lia.
Qed.

Lemma fieldLenOf_range (a : Align) (sep qual r : gostring) :
  0 <= fieldLenOf a sep qual r <= len r.
Proof. unfold fieldLenOf. destruct (On (txtq a)); apply genFieldLen_range. Qed.

(** One line of the measuring pass. *)
Lemma measureLine_spec (a : Align) (line : gostring) (counts : gmap Z Z) :
  sep a ≠ [] → positiveWidths counts →
  ∃ counts', measureLine a line counts = Some counts'
    ∧ positiveWidths counts'
    ∧ ∀ k, mapGet counts' k = Z.max (mapGet counts k) (rowWidth a line k).
Proof.
  intros Hs Hp.
  exists (recordAll counts 0
            (len <$> fieldsOf (fieldLenOf a (sep a) (Qualifier (txtq a))) (sep a) line)).
  split; [|split].
  - unfold measureLine, fieldLenOf, fieldsOf, fieldLenEscaped.
    destruct (On (txtq a));
      (rewrite measureLoop_fields;
       [by rewrite sliceFrom_0 | done | intros r; apply genFieldLen_range
       | lia | by rewrite sliceFrom_0]).
  - by apply positiveWidths_recordAll.
  - intros k. rewrite mapGet_recordAll by done. unfold rowWidth.
    by rewrite Z.sub_0_r.
Qed.

(** The whole measuring pass. *)
Lemma scanLoop_spec (a : Align) (input : list gostring) (counts : gmap Z Z)
    (acc : list gostring) :
  sep a ≠ [] → positiveWidths counts →
  ∃ counts', scanLoop a input counts acc = Some (counts', acc ++ input)
    ∧ positiveWidths counts'
    ∧ ∀ k, mapGet counts' k = Z.max (mapGet counts k) (maxWidth a input k).
Proof.
  intros Hs. revert counts acc.
  induction input as [|line input IH]; intros counts acc Hp.
  - exists counts. rewrite app_nil_r. split; [done|]. split; [done|].
    intros k. pose proof (mapGet_nonneg counts k Hp). unfold maxWidth. simpl. lia.
  - destruct (measureLine_spec a line counts Hs Hp) as (c1 & E1 & P1 & M1).
    destruct (IH c1 (acc ++ [line]) P1) as (c2 & E2 & P2 & M2).
    exists c2. split; [|split; [done|]].
    + cbn [scanLoop]. rewrite E1. simpl. rewrite E2. by rewrite <- app_assoc.
    + intros k. rewrite M2, M1. unfold maxWidth. cbn [fmap list_fmap foldr].
      apply eq_sym, Z.max_assoc.
Qed.

Lemma maxWidth_nonneg (a : Align) (input : list gostring) (k : Z) :
  0 <= maxWidth a input k.
Proof.
  unfold maxWidth. induction input as [|l input IH];
    cbn [fmap list_fmap foldr]; lia.
Qed.

Lemma maxWidth_upper (a : Align) (input : list gostring) (line : gostring) (k : Z) :
  line ∈ input → rowWidth a line k <= maxWidth a input k.
Proof.
  unfold maxWidth. induction input as [|l input IH]; intros Hin.
  - by apply elem_of_nil in Hin.
  - apply elem_of_cons in Hin as [->|Hin]; cbn [fmap list_fmap foldr]; [lia|].
    specialize (IH Hin). lia.
Qed.

Lemma maxWidth_attained (a : Align) (input : list gostring) (k : Z) :
  0 < maxWidth a input k →
  ∃ line, line ∈ input ∧ rowWidth a line k = maxWidth a input k.
Proof.
  unfold maxWidth. induction input as [|l input IH];
    cbn [fmap list_fmap foldr]; [lia|].
  intros Hpos.
  destruct (Z.max_spec (rowWidth a l k)
              (foldr Z.max 0 ((λ line, rowWidth a line k) <$> input)))
    as [[Hlt Hm]|[Hle Hm]]; rewrite Hm in *.
  - destruct (IH Hpos) as (line & Hin & E). exists line.
    split; [apply elem_of_cons; by right | done].
  - exists l. split; [apply elem_of_cons; by left | done].
Qed.

Lemma widthAt_lookup (row : list gostring) (c : nat) (w : gostring) :
  row !! c = Some w → widthAt row (Z.of_nat c) = len w.
Proof.
  intros E. unfold widthAt.
  assert ((Z.of_nat c <? 0) = false) as -> by (apply Z.ltb_ge; lia).
  by rewrite Nat2Z.id, E.
Qed.

Lemma widthAt_pos (row : list gostring) (k : Z) :
  0 < widthAt row k →
  0 <= k ∧ ∃ w, row !! Z.to_nat k = Some w ∧ len w = widthAt row k.
Proof.
  unfold widthAt. destruct (Z.ltb_spec k 0); [lia|].
  destruct (row !! Z.to_nat k) as [w|]; simpl; [|lia]. eauto.
Qed.

Lemma rowWidth_split (a : Align) (line : gostring) (words : list gostring) (k : Z) :
  sep a ≠ [] →
  splitWithQual a line (sep a) (Qualifier (txtq a)) = Some words →
  rowWidth a line k = widthAt words k.
Proof.
  intros Hs E.
  destruct (splitWithQual_fields a line (sep a) (Qualifier (txtq a)) Hs)
    as (tail & E' & Htail).
  rewrite E' in E. injection E as <-. unfold rowWidth.
  destruct Htail as [->|[_ ->]]; [by rewrite app_nil_r|].
  by rewrite widthAt_app_empty.
Qed.

Lemma splitWithQual_total (a : Align) (line : gostring) :
  sep a ≠ [] →
  ∃ words, splitWithQual a line (sep a) (Qualifier (txtq a)) = Some words.
Proof.
  intros Hs.
  destruct (splitWithQual_fields a line (sep a) (Qualifier (txtq a)) Hs)
    as (tail & E & _).
  eauto.
Qed.

(** C3, as amended. With a non-empty separator and an empty table to
    start from, the measuring pass returns, keeps the lines in order,
    and leaves in the table, for every column, the maximum byte length
    (no display-width correction) of the fields [splitWithQual] finds
    at that column: every such field is at most as long as the read
    [columnCounts[c]], and a positive entry is the length of one of
    them. [columnSize] returns -1 exactly for the columns without any
    non-empty field, the entry otherwise; in particular it returns -1
    for a column no line reaches. *)
Theorem columnLength_widths (a : Align) :
  sep a ≠ [] → columnCounts a = ∅ →
  ∃ a', columnLength a = Some a'
    ∧ lines a' = scanner a
    ∧ (∀ line words (c : nat) w,
         line ∈ scanner a →
         splitWithQual a line (sep a) (Qualifier (txtq a)) = Some words →
         words !! c = Some w →
         len w <= mapGet (columnCounts a') (Z.of_nat c))
    ∧ (∀ k, 0 < mapGet (columnCounts a') k →
         ∃ line words w,
           line ∈ scanner a
           ∧ splitWithQual a line (sep a) (Qualifier (txtq a)) = Some words
           ∧ 0 <= k ∧ words !! Z.to_nat k = Some w
           ∧ len w = mapGet (columnCounts a') k)
    ∧ (∀ k, columnSize a' k
            = if mapGet (columnCounts a') k =? 0 then -1
              else mapGet (columnCounts a') k)
    ∧ (∀ k, (∀ line words,
               line ∈ scanner a →
               splitWithQual a line (sep a) (Qualifier (txtq a)) = Some words →
               k < 0 ∨ len words <= k) →
            columnSize a' k = -1).
Proof.
  intros Hs Hempty.
  destruct (scanLoop_spec a (scanner a) (columnCounts a) [] Hs) as (cs & E & P & M).
  { rewrite Hempty. intros k v. by rewrite lookup_empty. }
  assert (∀ k, mapGet cs k = maxWidth a (scanner a) k) as M'.
  { intros k. rewrite M, Hempty. unfold mapGet at 1. rewrite lookup_empty. simpl.
    pose proof (maxWidth_nonneg a (scanner a) k). lia. }
  assert (∀ k, 0 < mapGet cs k →
            ∃ line words w,
              line ∈ scanner a
              ∧ splitWithQual a line (sep a) (Qualifier (txtq a)) = Some words
              ∧ 0 <= k ∧ words !! Z.to_nat k = Some w ∧ len w = mapGet cs k)
    as Hatt.
  { intros k Hpos. rewrite M' in *.
    destruct (maxWidth_attained a _ k Hpos) as (line & Hin & Hw).
    destruct (splitWithQual_total a line Hs) as (words & Ew).
    rewrite (rowWidth_split a line words k Hs Ew) in Hw.
    rewrite <- Hw in Hpos. destruct (widthAt_pos _ _ Hpos) as (H0 & w & El & Hl).
    exists line, words, w. repeat split; try done. lia. }
  assert (∀ k, match cs !! k with None => -1 | Some _ => mapGet cs k end
             = if mapGet cs k =? 0 then -1 else mapGet cs k) as Hsize.
  { intros k. unfold mapGet. destruct (cs !! k) as [v|] eqn:Ev; simpl; [|done].
    specialize (P _ _ Ev). by assert ((v =? 0) = false) as -> by lia. }
  eexists. split; [|split; [|split; [|split; [|split]]]].
  - unfold columnLength. rewrite E. simpl. reflexivity.
  - done.
  - simpl. intros line words c w Hin Ew El. rewrite M'.
    rewrite <- (widthAt_lookup _ _ _ El), <- (rowWidth_split a line words _ Hs Ew).
    by apply maxWidth_upper.
  - simpl. exact Hatt.
  - unfold columnSize. simpl. exact Hsize.
  - unfold columnSize. simpl. intros k Hnone. rewrite Hsize.
    destruct (Z.eqb_spec (mapGet cs k) 0) as [|Hne]; [done|].
    exfalso. pose proof (mapGet_nonneg cs k P).
    destruct (Hatt k ltac:(lia)) as (line & words & w & Hin & Ew & H0 & El & _).
    destruct (Hnone line words Hin Ew) as [?|Hle]; [lia|].
    apply lookup_lt_Some in El. unfold len in Hle. lia.
Qed.

(** The table of the lines [a,bb,ccc] and [dddd,e,f]. *)
Lemma columnLength_widths_witness :
  ∃ a', columnLength (NewAlign [str "a,bb,ccc"; str "dddd,e,f"] (str ",") qualOff)
        = Some a'
    ∧ lines a' = [str "a,bb,ccc"; str "dddd,e,f"].
Proof.
  destruct (columnLength_widths
              (NewAlign [str "a,bb,ccc"; str "dddd,e,f"] (str ",") qualOff))
    as (a' & E & L & _).
  - simpl. discriminate.
  - reflexivity.
  - exists a'. split; [exact E | exact L].
Defined.

(** C3, as stated, fails: a field holding one wide glyph (three bytes,
    two cells) is recorded with width 3, its byte length, while its
    display width is 2. *)
Lemma columnLength_no_display_width :
  (λ a', columnSize a' 0) <$> columnLength (NewAlign [wideGlyph] (str ",") qualOff)
    = Some 3
  ∧ @specDisplayWidth tableStringWidth wideGlyph = 2
  ∧ @StringWidth tableStringWidth wideGlyph = 2.
Proof. by vm_compute. Qed.

(** ** Padding *)

Lemma fillWithPadding_nonpos (padder : gostring) (n : Z) :
  n <= 0 → fillWithPadding padder n = padder.
Proof.
  intros Hn. unfold fillWithPadding.
  replace (Z.to_nat n) with 0%nat by lia. apply app_nil_r.
Qed.

Lemma applyPadding_lead (padder sp : gostring) (columnNum : Z) :
  (if (len sp >? 0) && (columnNum >? 0) then padder ++ sp else padder)
  = padder ++ (if columnNum >? 0 then sp else []).
Proof.
  destruct sp as [|c sp]; simpl.
  - destruct (columnNum >? 0); by rewrite app_nil_r.
  - destruct (columnNum >? 0); [done | by rewrite app_nil_r].
Qed.

Lemma applyPadding_trail (padder sp : gostring) :
  (if len sp >? 0 then padder ++ sp else padder) = padder ++ sp.
Proof. destruct sp; [by rewrite app_nil_r | done]. Qed.

(** C7. Center justification. With [padLength > 2] the buffer
    receives the leading surrounding pad (from the second column on),
    [padLength - padLength / 2] spaces, the field, [padLength / 2]
    spaces and the trailing surrounding pad, the two fills adding up
    to [padLength]; with [padLength <= 2] the result is that of Left
    justification: the field first, then [padLength] spaces. *)
Theorem applyPadding_center (padder original surroundingPad : gostring)
    (columnNum padLength : Z) :
  (2 < padLength →
     applyPadding padder original surroundingPad columnNum padLength JustifyCenter
     = padder ++ (if columnNum >? 0 then surroundingPad else [])
         ++ replicate (Z.to_nat (padLength - padLength / 2)) padchar
         ++ original
         ++ replicate (Z.to_nat (padLength / 2)) padchar
         ++ surroundingPad
     ∧ (Z.to_nat (padLength - padLength / 2) + Z.to_nat (padLength / 2))%nat
       = Z.to_nat padLength)
  ∧ (padLength <= 2 →
     applyPadding padder original surroundingPad columnNum padLength JustifyCenter
     = applyPadding padder original surroundingPad columnNum padLength JustifyLeft
     ∧ applyPadding padder original surroundingPad columnNum padLength JustifyLeft
       = padder ++ (if columnNum >? 0 then surroundingPad else [])
           ++ original ++ replicate (Z.to_nat padLength) padchar
           ++ surroundingPad).
Proof.
  split; intros Hp.
  - split.
    + unfold applyPadding. rewrite applyPadding_lead, applyPadding_trail.
      cbn [JustifyCenter JustifyLeft JustifyRight Z.eqb Pos.eqb].
      assert ((padLength >? 2) = true) as -> by lia.
      rewrite Z.quot_div_nonneg by lia. unfold fillWithPadding.
      by rewrite <- !app_assoc.
    + assert (0 <= padLength / 2 <= padLength); [|lia].
      split; [apply Z.div_pos; lia | apply Z.div_le_upper_bound; lia].
  - unfold applyPadding. rewrite !applyPadding_lead, !applyPadding_trail.
    cbn [JustifyCenter JustifyLeft JustifyRight Z.eqb Pos.eqb].
    assert ((padLength >? 2) = false) as -> by lia.
    split; [done|]. unfold fillWithPadding. by rewrite <- !app_assoc.
Qed.

(** A one-byte field with pad length 4 (two spaces on each side) and
    with pad length 2 (as Left: both spaces after the field). *)
Lemma applyPadding_center_witness :
  applyPadding [] (str "x") (str " ") 0 4 JustifyCenter = str "  x   "
  ∧ applyPadding [] (str "x") (str " ") 0 2 JustifyCenter = str "x   "
  ∧ applyPadding [] (str "x") (str " ") 0 2 JustifyCenter
    = applyPadding [] (str "x") (str " ") 0 2 JustifyLeft.
Proof.
  pose proof (applyPadding_center [] (str "x") (str " ") 0 4) as [H4 _].
  pose proof (applyPadding_center [] (str "x") (str " ") 0 2) as [_ H2].
  destruct (H4 ltac:(lia)) as [E4 _]. destruct (H2 ltac:(lia)) as [E2 E2'].
  split; [exact E4|]. split; [|exact E2].
  exact (eq_trans E2 E2').
Defined.

Lemma countPadding_eq `{RuneWidth} (s : gostring) (count : Z) :
  countPadding s count = count - Z.min (len s) (StringWidth s).
Proof.
  unfold countPadding. destruct (Z.ltb_spec (StringWidth s) (len s)); lia.
Qed.

(** C9, as amended. A field whose byte length and display width both
    exceed the recorded column width gets a negative pad length;
    [fillWithPadding] writes nothing for any non-positive length; and
    under each of the three justifications the buffer receives only
    the leading surrounding pad (from the second column on), the text
    of the field and the trailing surrounding pad. *)
Theorem applyPadding_narrow_column `{RuneWidth} (padder word surroundingPad : gostring)
    (columnNum count : Z) (just : Justification) :
  count < len word → count < StringWidth word →
  just = JustifyLeft ∨ just = JustifyRight ∨ just = JustifyCenter →
  countPadding word count < 0
  ∧ (∀ buf n, n <= 0 → fillWithPadding buf n = buf)
  ∧ applyPadding padder word surroundingPad columnNum (countPadding word count) just
    = padder ++ (if columnNum >? 0 then surroundingPad else [])
        ++ word ++ surroundingPad.
Proof.
  intros Hl Hw Hj.
  assert (countPadding word count < 0) as Hneg by (rewrite countPadding_eq; lia).
  split; [done|]. split; [apply fillWithPadding_nonpos|].
  unfold applyPadding. rewrite applyPadding_lead, applyPadding_trail.
  assert ((countPadding word count >? 2) = false) as -> by lia.
  rewrite !fillWithPadding_nonpos by lia.
  destruct Hj as [->|[->| ->]];
    cbn [JustifyCenter JustifyLeft JustifyRight Z.eqb Pos.eqb];
    by rewrite <- !app_assoc.
Qed.

(** The field [abcde] in a column recorded with width 3. *)
Lemma applyPadding_narrow_column_witness :
  @countPadding tableStringWidth (str "abcde") 3 < 0
  ∧ applyPadding [] (str "abcde") (str " ") 1
      (@countPadding tableStringWidth (str "abcde") 3) JustifyRight
    = str " abcde ".
Proof.
  destruct (@applyPadding_narrow_column tableStringWidth [] (str "abcde") (str " ")
              1 3 JustifyRight) as (Hneg & _ & E).
  - vm_compute. reflexivity.
  - vm_compute. reflexivity.
  - right. left. reflexivity.
  - split; [exact Hneg | exact E].
Defined.

(** C9, as stated, fails: a field of two wide glyphs is 6 bytes long,
    more than a column width of 5, yet its pad length is 1 (the width
    minus its 4 cells), and a fill character is written after it. *)
Lemma countPadding_wide_not_negative :
  5 < len (wideGlyph ++ wideGlyph)
  ∧ @countPadding tableStringWidth (wideGlyph ++ wideGlyph) 5 = 1
  ∧ applyPadding [] (wideGlyph ++ wideGlyph) (str " ") 0
      (@countPadding tableStringWidth (wideGlyph ++ wideGlyph) 5) JustifyLeft
    = (wideGlyph ++ wideGlyph) ++ [padchar] ++ str " ".
Proof. by vm_compute. Qed.

(** ** Justification of a field *)

Lemma rangeOverride_miss (entries : list (Z * Z)) (c j : Z) :
  c + 1 ∉ entries.*1 → rangeOverride entries c j = j.
Proof.
  revert j. induction entries as [|[k v] entries IH]; intros j Hn; [done|].
  unfold rangeOverride in *. cbn [fold_left fst snd].
  rewrite fmap_cons, not_elem_of_cons in Hn. destruct Hn as [Hk Hn].
  cbn [fst] in Hk. rewrite (proj2 (Z.eqb_neq k (c + 1))) by done.
  by apply IH.
Qed.

Lemma rangeOverride_hit (entries : list (Z * Z)) (c j v : Z) :
  NoDup entries.*1 → (c + 1, v) ∈ entries → rangeOverride entries c j = v.
Proof.
  revert j. induction entries as [|[k u] entries IH]; intros j Hnd Hin.
  - by apply elem_of_nil in Hin.
  - rewrite fmap_cons in Hnd. apply NoDup_cons in Hnd as [Hk Hnd].
    cbn [fst] in Hk. apply elem_of_cons in Hin as [[= <- <-]|Hin].
    + unfold rangeOverride. cbn [fold_left fst snd]. rewrite Z.eqb_refl.
      by apply rangeOverride_miss.
    + unfold rangeOverride in *. cbn [fold_left fst snd]. by apply IH.
Qed.

(** In whatever order the iteration over the map yields its entries,
    the loop computes a lookup at key [columnNum + 1]. *)
Lemma rangeOverride_lookup (m : gmap Z Z) (entries : list (Z * Z)) (c j : Z) :
  entries ≡ₚ map_to_list m →
  rangeOverride entries c j = default j (m !! (c + 1)).
Proof.
  intros Hperm.
  assert (NoDup entries.*1) as Hnd.
  { rewrite Hperm. apply NoDup_fst_map_to_list. }
  destruct (m !! (c + 1)) as [v|] eqn:E; simpl.
  - apply rangeOverride_hit; [done|]. rewrite Hperm.
    by apply elem_of_map_to_list.
  - apply rangeOverride_miss. rewrite Hperm. intros Hin.
    apply list_elem_of_fmap in Hin as ([k v] & Hk & Hin). simpl in Hk. subst k.
    apply elem_of_map_to_list in Hin. congruence.
Qed.

Lemma fieldJustification_lookup (p : PaddingOpts) (c : Z) :
  fieldJustification p c = default (justification p) (ColumnOverride p !! (c + 1)).
Proof.
  unfold fieldJustification.
  destruct (Z.gtb_spec (Z.of_nat (size (ColumnOverride p))) 0) as [H|H].
  - by apply rangeOverride_lookup.
  - assert (ColumnOverride p = ∅) as -> by (apply map_size_empty_iff; lia).
    by rewrite lookup_empty.
Qed.

(** C8, as amended. The override table is keyed by the 1-based column
    number: for the field at 0-based column index [columnNum] the
    iteration over the table, in any order, yields the entry at key
    [columnNum + 1] when there is one and the default justification
    otherwise; and a field that passes the filter is padded by
    [export] under that justification, then followed either by the
    line terminator, ending the row, or by the output separator. *)
Theorem export_justification `{RuneWidth} (a : Align) (surroundingPad : gostring)
    (nwords : Z) (word : gostring) (rest : list gostring) (columnNum tempColumn : Z)
    (w p : gostring) :
  let j := default (justification (padOpts a))
             (ColumnOverride (padOpts a) !! (columnNum + 1)) in
  let paddedWord :=
    applyPadding p word surroundingPad tempColumn
      (countPadding word (mapGet (columnCounts a) columnNum)) j in
  (∀ entries, entries ≡ₚ map_to_list (ColumnOverride (padOpts a)) →
     rangeOverride entries columnNum (justification (padOpts a)) = j)
  ∧ ((filterLen a >? 0) && negb (contains (filter a) (columnNum + 1)) = false →
     wordsLoop a surroundingPad nwords (word :: rest) columnNum tempColumn w p
       = (w ++ paddedWord ++ [newline], [])
     ∨ wordsLoop a surroundingPad nwords (word :: rest) columnNum tempColumn w p
       = wordsLoop a surroundingPad nwords rest (columnNum + 1) (tempColumn + 1)
           (w ++ paddedWord ++ sepOut a) []).
Proof.
  intros j paddedWord. split.
  - intros entries Hperm. by apply rangeOverride_lookup.
  - intros Hpass. cbn [wordsLoop]. rewrite Hpass.
    rewrite fieldJustification_lookup. fold j. fold paddedWord.
    destruct (_ || _); [by left | by right].
Qed.

(** The field [a] of a one-line input, with an override for column 1. *)
Lemma export_justification_witness :
  let a := UpdatePadding (NewAlign [] (str ",") qualOff)
             {| justification := JustifyLeft;
                ColumnOverride := {[ 1 := JustifyRight ]}; Pad := 1 |} in
  @wordsLoop tableStringWidth a (str " ") 1 [str "a"] 0 0 [] []
    = ([] ++ applyPadding [] (str "a") (str " ") 0
               (@countPadding tableStringWidth (str "a") 0) JustifyRight
          ++ [newline], [])
  ∨ @wordsLoop tableStringWidth a (str " ") 1 [str "a"] 0 0 [] []
    = @wordsLoop tableStringWidth a (str " ") 1 [] 1 1
        ([] ++ applyPadding [] (str "a") (str " ") 0
                 (@countPadding tableStringWidth (str "a") 0) JustifyRight
            ++ str ",") [].
Proof.
  intros a.
  exact (proj2 (@export_justification tableStringWidth a (str " ") 1 (str "a") []
                  0 0 [] []) eq_refl).
Defined.

(** C8, as stated, fails: with an override to Right at key 0 and the
    default Left, the field at column index 0 is justified Left (the
    loop looks for key 1), and [Align] writes [a] before its fill. *)
Lemma export_override_key_is_column_number :
  let opts := {| justification := JustifyLeft;
                 ColumnOverride := {[ 0 := JustifyRight ]}; Pad := 1 |} in
  ColumnOverride opts !! 0 = Some JustifyRight
  ∧ fieldJustification opts 0 = JustifyLeft
  ∧ writer <$> @AlignAlign tableStringWidth
                 (UpdatePadding (NewAlign [str "a"; str "bbb"] (str ",") qualOff) opts)
    = Some (str "a   ,bbb ,").
Proof. by vm_compute. Qed.

(** ** Export *)

(** Without a filter the row ends with a line terminator only when the
    1-based number of the column equals the byte length of the padded
    field; the last field of a row is otherwise followed by the output
    separator. *)
Lemma wordsLoop_last_field `{RuneWidth} (a : Align) (surroundingPad : gostring)
    (nwords : Z) (word : gostring) (columnNum tempColumn : Z) (w p : gostring) :
  filter a = [] →
  let paddedWord :=
    applyPadding p word surroundingPad tempColumn
      (countPadding word (mapGet (columnCounts a) columnNum))
      (fieldJustification (padOpts a) columnNum) in
  wordsLoop a surroundingPad nwords [word] columnNum tempColumn w p
  = if columnNum + 1 =? len paddedWord
    then (w ++ paddedWord ++ [newline], [])
    else (w ++ paddedWord ++ sepOut a, []).
Proof.
  intros Hf paddedWord. cbn [wordsLoop]. unfold filterLen. rewrite Hf.
  cbn [len length Z.of_nat Z.gtb Z.compare andb orb]. fold paddedWord.
  by destruct (_ =? _).
Qed.

(** C1 fails on the code. [Align] on the lines [a,bb,ccc] and
    [dddd,e,f] with the default options writes the output separator
    after the last field of each row and no line terminator at all:
    the test that ends a row compares the column number with the byte
    length of the padded field. *)
Theorem export_last_field_not_terminated :
  @alignOutput tableStringWidth [str "a,bb,ccc"; str "dddd,e,f"] (str ",") qualOff
    = Some (str "a    , bb , ccc ,dddd , e  , f   ,")
  ∧ newline ∉ str "a    , bb , ccc ,dddd , e  , f   ,".
Proof.
  split; [by vm_compute|].
  vm_compute. intros Hin. repeat (apply elem_of_cons in Hin as [Hin|Hin]; [done|]).
  by apply elem_of_nil in Hin.
Qed.

(** C2, as stated, fails: the output is not the two lines
    [a    bb  ccc] and [dddd e   f]. *)
Lemma align_example_output_differs :
  @alignOutput tableStringWidth [str "a,bb,ccc"; str "dddd,e,f"] (str ",") qualOff
  ≠ Some (str "a    bb  ccc" ++ [newline] ++ str "dddd e   f" ++ [newline]).
Proof. by vm_compute. Qed.

(** C2, as amended. On the lines [a,bb,ccc] and [dddd,e,f] with
    separator [,], Left justification and pad width 1, the table of
    widths is {0:4, 1:2, 2:3}, and the output consists, row by row, of
    the fields padded to their column width, each followed by one
    space and each but the first of its row preceded by one, with the
    output separator [,] between the fields of a row; each row's last
    field is followed by a separator or a line terminator. *)
Theorem align_example :
  columnCounts <$> columnLength (NewAlign [str "a,bb,ccc"; str "dddd,e,f"] (str ",") qualOff)
    = Some {[ 0 := 4; 1 := 2; 2 := 3 ]}
  ∧ ∃ t1 t2,
      @alignOutput tableStringWidth [str "a,bb,ccc"; str "dddd,e,f"] (str ",") qualOff
      = Some (str "a    , bb , ccc " ++ t1 ++ str "dddd , e  , f   " ++ t2)
      ∧ (t1 = str "," ∨ t1 = [newline]) ∧ (t2 = str "," ∨ t2 = [newline]).
Proof.
  split.
  - vm_compute. f_equal.
  - exists (str ","), (str ","). split; [by vm_compute|]. split; by left.
Qed.

(** X23. When the filter skips the last field of a row, the row still
    ends with a line terminator: either an earlier field ended the
    row, or the skip of the last field writes the terminator. *)
Lemma wordsLoop_skipped_last `{RuneWidth} (a : Align) (surroundingPad : gostring)
    (words : list gostring) (columnNum tempColumn : Z) (w p : gostring) :
  words ≠ [] → 0 < filterLen a →
  contains (filter a) (columnNum + len words) = false →
  ∃ pre, (wordsLoop a surroundingPad (columnNum + len words) words
            columnNum tempColumn w p).1 = pre ++ [newline].
Proof.
  intros Hne Hf. revert columnNum tempColumn w p Hne.
  induction words as [|word rest IH]; intros columnNum tempColumn w p Hne Hc; [done|].
  cbn [wordsLoop]. assert ((filterLen a >? 0) = true) as -> by lia.
  assert (len (word :: rest) = 1 + len rest) as Hlen by (unfold len; simpl; lia).
  cbn [andb]. destruct (decide (rest = [])) as [->|Hrest].
  - change (len [word]) with 1 in *. rewrite Hc. cbn [negb].
    rewrite Z.eqb_refl. by exists w.
  - rewrite Hlen in *.
    replace (columnNum + (1 + len rest)) with (columnNum + 1 + len rest) in * by lia.
    destruct (negb (contains (filter a) (columnNum + 1))).
    + destruct (columnNum + 1 =? columnNum + 1 + len rest); by apply IH.
    + destruct (_ || _).
      * eexists. cbn [fst]. by rewrite !app_assoc.
      * by apply IH.
Qed.

(** X24. The filter [1,3] on a row of three fields: unless the padded
    first field is exactly one byte long, the row is the padded fields
    of columns 1 and 3, the output separator between them and the line
    terminator after them. *)
Lemma wordsLoop_filter_1_3 `{RuneWidth} (a : Align) (surroundingPad : gostring)
    (w1 w2 w3 w p : gostring) :
  filter a = [1; 3] →
  let padded1 :=
    applyPadding p w1 surroundingPad 0
      (countPadding w1 (mapGet (columnCounts a) 0))
      (fieldJustification (padOpts a) 0) in
  let padded3 :=
    applyPadding [] w3 surroundingPad 1
      (countPadding w3 (mapGet (columnCounts a) 2))
      (fieldJustification (padOpts a) 2) in
  len padded1 ≠ 1 →
  wordsLoop a surroundingPad 3 [w1; w2; w3] 0 0 w p
  = (w ++ padded1 ++ sepOut a ++ padded3 ++ [newline], []).
Proof.
  intros Hf padded1 padded3 Hlen. cbn [wordsLoop]. unfold filterLen. rewrite Hf.
  change (len [1; 3] >? 0) with true.
  change (contains [1; 3] (0 + 1)) with true.
  change (contains [1; 3] (0 + 1 + 1)) with false.
  change (contains [1; 3] (0 + 1 + 1 + 1)) with true.
  change (index [1; 3] (len [1; 3] - 1)) with 3.
  cbn [andb negb orb]. fold padded1.
  change (3 =? 0 + 1) with false. change (0 + 1 + 1 =? 3) with false.
  change (3 =? 0 + 1 + 1 + 1) with true. cbn [orb].
  assert ((0 + 1 =? len padded1) = false) as -> by lia.
  fold padded3. by rewrite <- !app_assoc.
Qed.

(** C6 fails on the code. With the filter [1,3] and pad width 0 the
    3-field line [a,b,c] is written as [a] and a line terminator:
    column 3 is never emitted, because the padded first field is one
    byte long and the column number 1 equals that length. The same
    happens under the default pad width for the line [,b,c], written
    as one space and a line terminator. *)
Theorem export_filter_row_cut_short :
  writer <$> @AlignAlign tableStringWidth
               (FilterColumns
                  (UpdatePadding (NewAlign [str "a,b,c"] (str ",") qualOff)
                     {| justification := JustifyLeft; ColumnOverride := ∅; Pad := 0 |})
                  [1; 3])
    = Some (str "a" ++ [newline])
  ∧ writer <$> @AlignAlign tableStringWidth
                 (FilterColumns (NewAlign [str ",b,c"] (str ",") qualOff) [1; 3])
    = Some (str " " ++ [newline])
  ∧ writer <$> @AlignAlign tableStringWidth
                 (FilterColumns (NewAlign [str "aa,b,c"] (str ",") qualOff) [1; 3])
    = Some (str "aa , c " ++ [newline]).
Proof. by vm_compute. Qed.

(** ** Empty lines *)

Lemma Split_nil (sep : gostring) : sep ≠ [] → strings.Split [] sep = [[]].
Proof.
  intros Hs. destruct sep as [|c sep]; [done|].
  unfold strings.Split, strings.Count. cbn [length strings.countLoop].
  by assert (strings.Index [] (c :: sep) = -1) as -> by done.
Qed.

Lemma exportLine_empty_on `{RuneWidth} (a : Align) (surroundingPad w p : gostring) :
  On (txtq a) = true → exportLine a surroundingPad [] w p = Some (w, p).
Proof. intros Hon. unfold exportLine, splitWithQual. by rewrite Hon. Qed.

Lemma linesLoop_empty_on `{RuneWidth} (a : Align) (surroundingPad : gostring)
    (l1 l2 : list gostring) (w p : gostring) :
  On (txtq a) = true →
  linesLoop a surroundingPad (l1 ++ [] :: l2) w p
  = linesLoop a surroundingPad (l1 ++ l2) w p.
Proof.
  intros Hon. revert w p. induction l1 as [|l l1 IH]; intros w p.
  - cbn [app linesLoop]. by rewrite exportLine_empty_on.
  - cbn [app linesLoop]. destruct (exportLine a surroundingPad l w p) as [[w' p']|];
      [apply IH | done].
Qed.

Lemma linesLoop_app `{RuneWidth} (a : Align) (surroundingPad : gostring)
    (l1 l2 : list gostring) (w p : gostring) :
  linesLoop a surroundingPad (l1 ++ l2) w p
  = match linesLoop a surroundingPad l1 w p with
    | Some (w1, p1) => linesLoop a surroundingPad l2 w1 p1
    | None => None
    end.
Proof.
  revert w p. induction l1 as [|l l1 IH]; intros w p; [done|].
  cbn [app linesLoop]. destruct (exportLine a surroundingPad l w p) as [[w' p']|];
    [apply IH | done].
Qed.

Lemma wordsLoop_ext `{RuneWidth} (a b : Align) (surroundingPad : gostring)
    (nwords : Z) (words : list gostring) (columnNum tempColumn : Z) (w p : gostring) :
  sameConfig a b →
  wordsLoop a surroundingPad nwords words columnNum tempColumn w p
  = wordsLoop b surroundingPad nwords words columnNum tempColumn w p.
Proof.
  intros (_ & Hso & Hcc & _ & Hpo & Hf). revert columnNum tempColumn w p.
  induction words as [|word rest IH]; intros columnNum tempColumn w p; [done|].
  cbn [wordsLoop]. unfold filterLen. rewrite Hf, Hpo, Hcc, Hso.
  destruct (_ && negb _); [apply IH|]. destruct (_ || _); [done | apply IH].
Qed.

Lemma linesLoop_ext `{RuneWidth} (a b : Align) (surroundingPad : gostring)
    (ls : list gostring) (w p : gostring) :
  sameConfig a b →
  linesLoop a surroundingPad ls w p = linesLoop b surroundingPad ls w p.
Proof.
  intros Hab. pose proof Hab as (Hs & _ & _ & Ht & _ & _). revert w p.
  induction ls as [|line ls IH]; intros w p; [done|].
  cbn [linesLoop]. unfold exportLine, splitWithQual. rewrite Hs, Ht.
  destruct (if negb (On (txtq b)) then _ else _) as [words|]; [|done].
  cbn [mbind option_bind]. rewrite (wordsLoop_ext a b) by done.
  destruct (wordsLoop b _ _ _ _ _ _ _) as [w' p']. apply IH.
Qed.

Lemma clampPad_replicate (p : PaddingOpts) :
  replicate (Z.to_nat (Pad (clampPad p))) padchar = replicate (Z.to_nat (Pad p)) padchar.
Proof.
  unfold clampPad. destruct (Z.ltb_spec (Pad p) 0) as [Hneg|Hpos]; [|done].
  cbn [Pad]. by replace (Z.to_nat (Pad p)) with 0%nat by lia.
Qed.

Lemma clampPad_justification (p : PaddingOpts) (c : Z) :
  fieldJustification (clampPad p) c = fieldJustification p c.
Proof. unfold clampPad. by destruct (Pad p <? 0). Qed.

(** What a pass of [export] leaves in the writer and the padder is
    what the loop over the stored lines leaves, run with the clamped
    options. *)
Lemma export_outputs `{RuneWidth} (a b : Align) :
  sameConfig b a →
  outputs <$> export b
  = linesLoop (UpdatePadding a (clampPad (padOpts a)))
      (replicate (Z.to_nat (Pad (padOpts a))) padchar)
      (lines b) (writer b) (padder b).
Proof.
  intros Hba. pose proof Hba as (_ & _ & _ & _ & Hpo & _).
  unfold export. cbn [lines writer padder UpdatePadding].
  rewrite clampPad_replicate, Hpo.
  rewrite (linesLoop_ext (UpdatePadding b (clampPad (padOpts a)))
             (UpdatePadding a (clampPad (padOpts a)))).
  - by destruct (linesLoop _ _ _ _ _) as [[w p]|].
  - destruct Hba as (? & ? & ? & ? & ? & ?). by repeat split.
Qed.

Lemma exportLine_empty_off `{RuneWidth} (a : Align) (surroundingPad w p : gostring) :
  On (txtq a) = false → sep a ≠ [] →
  exportLine a surroundingPad [] w p
  = Some
      (if (filterLen a >? 0) && negb (contains (filter a) 1)
       then (w ++ [newline], p)
       else
         let paddedWord :=
           applyPadding p [] surroundingPad 0
             (countPadding [] (mapGet (columnCounts a) 0))
             (fieldJustification (padOpts a) 0) in
         (w ++ paddedWord
            ++ (if (filterLen a >? 0) && (index (filter a) (filterLen a - 1) =? 1)
                   || (1 =? len paddedWord)
                then [newline] else sepOut a), [])).
Proof.
  intros Hoff Hs.
  assert (splitWithQual a [] (sep a) (Qualifier (txtq a)) = Some [[]]) as E.
  { unfold splitWithQual. rewrite Hoff. cbn [negb]. by rewrite Split_nil. }
  unfold exportLine. rewrite E. cbn [mbind option_bind wordsLoop]. f_equal.
  change (len [[]]) with 1. change (0 + 1) with 1. lazy zeta.
  destruct ((filterLen a >? 0) && negb (contains (filter a) 1)); [done|].
  by destruct (_ || _).
Qed.

(** C10, as amended. With the qualifier on, [splitWithQual] returns
    no field for the empty line, and a pass of [export] over stored
    lines that hold an empty line leaves in the writer and in the
    padder what the pass over the lines without it leaves: the row
    disappears. With the qualifier off and a non-empty separator, the
    empty line is exactly one empty field, and the pass of [export]
    goes on, after the lines before it, from a writer that has
    received the row of that field: when no filter is set or the
    filter holds column 1, the empty field padded for the first
    column (built in the padder as the lines before left it, under
    the justification of column 1), followed by the line terminator
    or the output separator, the padder being reset; when the filter
    skips column 1, the line terminator alone, the padder untouched. *)
Theorem export_empty_line `{RuneWidth} (a : Align) :
  (On (txtq a) = true →
     splitWithQual a [] (sep a) (Qualifier (txtq a)) = Some []
     ∧ ∀ l1 l2,
         outputs <$> export (withLines a (l1 ++ [] :: l2))
         = outputs <$> export (withLines a (l1 ++ l2)))
  ∧ (On (txtq a) = false → sep a ≠ [] →
     splitWithQual a [] (sep a) (Qualifier (txtq a)) = Some [[]]
     ∧ ∀ l1 l2 a1,
         export (withLines a l1) = Some a1 →
         let surroundingPad := replicate (Z.to_nat (Pad (padOpts a))) padchar in
         let paddedWord :=
           applyPadding (padder a1) [] surroundingPad 0
             (countPadding [] (mapGet (columnCounts a) 0))
             (fieldJustification (padOpts a) 0) in
         let terminator :=
           if (filterLen a >? 0) && (index (filter a) (filterLen a - 1) =? 1)
              || (1 =? len paddedWord)
           then [newline] else sepOut a in
         let skipped := (filterLen a >? 0) && negb (contains (filter a) 1) in
         outputs <$> export (withLines a (l1 ++ [] :: l2))
         = outputs <$>
             export (withLines
                       (withBuffers a
                          (writer a1 ++ (if skipped then [newline]
                                         else paddedWord ++ terminator))
                          (if skipped then padder a1 else []))
                       l2)).
Proof.
  split.
  - intros Hon. split; [unfold splitWithQual; by rewrite Hon|].
    intros l1 l2.
    rewrite (export_outputs a (withLines a (l1 ++ [] :: l2))) by done.
    rewrite (export_outputs a (withLines a (l1 ++ l2))) by done.
    cbn [lines writer padder withLines]. by apply linesLoop_empty_on.
  - intros Hoff Hs. split.
    { unfold splitWithQual. rewrite Hoff. cbn [negb]. by rewrite Split_nil. }
    intros l1 l2 a1 E1 surroundingPad paddedWord terminator skipped.
    pose proof (export_outputs a (withLines a l1) ltac:(done)) as H1.
    rewrite E1 in H1. cbn [fmap option_fmap option_map outputs lines writer padder
                            withLines] in H1.
    rewrite (export_outputs a (withLines a (l1 ++ [] :: l2))) by done.
    rewrite (export_outputs a (withLines (withBuffers a _ _) l2)) by done.
    cbn [lines writer padder withLines withBuffers].
    rewrite linesLoop_app. rewrite <- H1. fold surroundingPad.
    unfold outputs. cbn [linesLoop]. rewrite exportLine_empty_off by done.
    cbn [mbind option_bind filter columnCounts padOpts sepOut UpdatePadding].
    unfold filterLen. cbn [filter UpdatePadding]. fold (filterLen a).
    rewrite clampPad_justification. fold paddedWord. fold skipped.
    destruct skipped; [done|]. cbn zeta. fold terminator. done.
Qed.

(** An empty line between two lines with the qualifier on; an empty
    line alone with the qualifier off and the default options. *)
Lemma export_empty_line_witness :
  outputs <$> @export tableStringWidth
                (withLines (NewAlign [] (str ",") qualOn)
                   ([str "a,b"] ++ [] :: [str "c,d"]))
  = outputs <$> @export tableStringWidth
                  (withLines (NewAlign [] (str ",") qualOn)
                     ([str "a,b"] ++ [str "c,d"]))
  ∧ outputs <$> @export tableStringWidth
                  (withLines (NewAlign [] (str ",") qualOff) ([] ++ [] :: []))
    = Some (str " " ++ [newline], []).
Proof.
  pose proof (@export_empty_line tableStringWidth (NewAlign [] (str ",") qualOn))
    as [Hon _].
  pose proof (@export_empty_line tableStringWidth (NewAlign [] (str ",") qualOff))
    as [_ Hoff].
  destruct (Hon eq_refl) as [_ E1].
  destruct (Hoff eq_refl ltac:(discriminate)) as [_ E2].
  split; [exact (E1 [str "a,b"] [str "c,d"])|].
  exact (E2 [] [] (withLines (NewAlign [] (str ",") qualOff) []) eq_refl).
Defined.

(** C10, as stated, fails in its second half. With the qualifier off
    and the filter [2], [Align] writes for an empty line the line
    terminator alone: the empty field is not rendered (unfiltered, the
    same input gives the surrounding pad of the field and then the
    terminator). With the qualifier off and an empty separator the
    empty line has no field at all and nothing is written. *)
Lemma export_empty_line_not_always_rendered :
  writer <$> @AlignAlign tableStringWidth
               (FilterColumns (NewAlign [[]] (str ",") qualOff) [2])
    = Some [newline]
  ∧ writer <$> @AlignAlign tableStringWidth (NewAlign [[]] (str ",") qualOff)
    = Some (str " " ++ [newline])
  ∧ splitWithQual (NewAlign [[]] [] qualOff) [] [] [] = Some []
  ∧ writer <$> @AlignAlign tableStringWidth (NewAlign [[]] [] qualOff) = Some [].
Proof. by vm_compute. Qed.

(** ** Fields of a line *)

Lemma absent_qualified (s sep qual : gostring) :
  absent sep s → absent (qual ++ sep) s.
Proof.
  intros Ha j [t Ht]. apply (Ha (j + length qual)%nat).
  exists t. rewrite <- drop_drop, Ht, <- app_assoc.
  by rewrite drop_app_length.
Qed.

Lemma genFieldLen_absent (s sep qual : gostring) :
  absent sep s → genFieldLen s sep qual = len s.
Proof.
  intros Ha. destruct (decide (qual `prefix_of` s)) as [Hq|Hq].
  - rewrite genFieldLen_qualified by done.
    by rewrite (proj2 (Index_absent_iff s (qual ++ sep)) (absent_qualified _ _ _ Ha)).
  - rewrite genFieldLen_plain by auto.
    by rewrite (proj2 (Index_absent_iff s sep) Ha).
Qed.

(** X22. A non-empty line without any separator is one field, the
    whole line, with the qualifier on or off. *)
Lemma splitWithQual_no_separator (a : Align) (s sep qual : gostring) :
  s ≠ [] → sep ≠ [] → absent sep s →
  splitWithQual a s sep qual = Some [s].
Proof.
  intros Hne Hs Ha. unfold splitWithQual. destruct (On (txtq a)); cbn [negb].
  - rewrite splitQualLoop_fields by (rewrite ?sliceFrom_0; done || lia).
    rewrite sliceFrom_0. destruct s as [|c s]; [done|].
    cbn [length fieldsFrom]. rewrite (genFieldLen_absent _ _ _ Ha), sliceTo_all.
    rewrite sliceFrom_ge by (pose proof (len_nonneg sep); lia).
    by rewrite fieldsFrom_nil.
  - f_equal. destruct sep as [|d sep]; [done|].
    unfold strings.Split, strings.Count. cbn [strings.countLoop].
    by rewrite (proj2 (Index_absent_iff s (d :: sep)) Ha).
Qed.

(** C5 fails on the code. With the qualifier on, the line [a,] is split
    into the single field [a]: the loop stops once the cursor is at the
    end of the line, and the empty field after the last separator is
    lost. With the qualifier off [strings.Split] returns [a] and the
    empty field. *)
Theorem splitWithQual_trailing_field_lost :
  splitWithQual (NewAlign [] (str ",") qualOn) (str "a,") (str ",") (str "'")
    = Some [str "a"]
  ∧ splitWithQual (NewAlign [] (str ",") qualOff) (str "a,") (str ",") []
    = Some [str "a"; []].
Proof. by vm_compute. Qed.

(** ** The empty separator *)

Lemma fieldLen_empty_sep (s : gostring) : fieldLen s [] = 0.
Proof.
  unfold fieldLen. rewrite genFieldLen_plain by auto.
  by assert (strings.Index s [] = 0) as -> by (by destruct s).
Qed.

(** With an empty separator and the qualifier off the cursor of the
    measuring loop never moves: on a non-empty line the loop does not
    end, whatever the fuel. *)
Lemma measureLoop_empty_sep (fuel : nat) (line : gostring) (columnNum : Z)
    (counts : gmap Z Z) :
  line ≠ [] →
  measureLoop fuel (fun s => fieldLen s []) line [] 0 columnNum counts = None.
Proof.
  intros Hne. revert columnNum counts.
  induction fuel as [|f IH]; intros columnNum counts; cbn [measureLoop].
  - destruct line; [done|]. done.
  - destruct line as [|c line]; [done|].
    assert ((0 <? len (c :: line)) = true) as -> by done.
    rewrite fieldLen_empty_sep. apply IH.
Qed.

(** ** [Align] returns

    With a non-empty separator no loop runs out of fuel: both passes
    end, whatever the lines, the widths and the options. *)

Lemma measureLine_returns (a : Align) (line : gostring) (counts : gmap Z Z) :
  sep a ≠ [] → is_Some (measureLine a line counts).
Proof.
  intros Hs. unfold measureLine, fieldLenEscaped.
  destruct (On (txtq a));
    (rewrite measureLoop_fields;
     [done | done | intros r; apply genFieldLen_range | lia
     | by rewrite sliceFrom_0]).
Qed.

Lemma scanLoop_returns (a : Align) (input : list gostring) (counts : gmap Z Z)
    (acc : list gostring) :
  sep a ≠ [] → is_Some (scanLoop a input counts acc).
Proof.
  intros Hs. revert counts acc.
  induction input as [|line input IH]; intros counts acc; [done|].
  cbn [scanLoop]. destruct (measureLine_returns a line counts Hs) as [c' ->].
  apply IH.
Qed.

Lemma linesLoop_returns `{RuneWidth} (a : Align) (surroundingPad : gostring)
    (ls : list gostring) (w p : gostring) :
  sep a ≠ [] → is_Some (linesLoop a surroundingPad ls w p).
Proof.
  intros Hs. revert w p. induction ls as [|line ls IH]; intros w p; [done|].
  cbn [linesLoop]. unfold exportLine.
  destruct (splitWithQual_total a line Hs) as [words ->]. cbn [mbind option_bind].
  destruct (wordsLoop _ _ _ _ _ _ _ _) as [w' p']. apply IH.
Qed.

(** X7. With a non-empty separator [Align] returns: the measuring
    loops and the splitting loops end on every line, for every
    qualifier, filter and padding option. *)
Lemma AlignAlign_returns `{RuneWidth} (a : Align) :
  sep a ≠ [] → is_Some (AlignAlign a).
Proof.
  intros Hs. unfold AlignAlign, columnLength.
  destruct (scanLoop_returns a (scanner a) (columnCounts a) [] Hs) as [[cs ls] ->].
  cbn [mbind option_bind]. unfold export.
  match goal with
  | |- context [linesLoop ?a' ?sp ?l ?w ?p] =>
      destruct (linesLoop_returns a' sp l w p Hs) as [[w' p'] ->]
  end.
  done.
Qed.


(** * Further properties of the package *)

(** ** [contains] and the field length *)

(** X1. [contains] is membership in the slice. *)
Theorem contains_elem_of (nums : list Z) (num : Z) :
  contains nums num = true ↔ num ∈ nums.
Proof.
  induction nums as [|v nums IH]; cbn [contains].
  - split; [done | intros H; by apply elem_of_nil in H].
  - rewrite elem_of_cons. destruct (Z.eqb_spec v num) as [->|Hne].
    + split; [by left | done].
    + rewrite IH. split; [by right | intros [->|?]; done].
Qed.

(** X2. The slice of [splitWithQual] never leaves the line: for a
    cursor inside the line, the field length found there is not
    negative, the field ends within the line, and [s[start:start+count]]
    has exactly [count] bytes. *)
Theorem splitWithQual_slice_in_range (s sep qual : gostring) (start : Z) :
  0 <= start → start < len s →
  let count := genFieldLen (sliceFrom s start) sep qual in
  0 <= count ∧ start + count <= len s
  ∧ len (slice s start (start + count)) = count.
Proof.
  intros H0 Hlt count.
  pose proof (genFieldLen_range (sliceFrom s start) sep qual) as Hr. fold count in Hr.
  assert (len (sliceFrom s start) = len s - start) as Hl.
  { unfold len, sliceFrom in *. rewrite length_drop. lia. }
  split; [lia|]. split; [lia|].
  rewrite slice_sliceFrom. apply len_sliceTo. lia.
Qed.

Lemma splitWithQual_slice_in_range_witness :
  let count := genFieldLen (sliceFrom (str "ab,cd") 3) (str ",") [] in
  0 <= count ∧ 3 + count <= len (str "ab,cd")
  ∧ len (slice (str "ab,cd") 3 (3 + count)) = count.
Proof.
  apply (splitWithQual_slice_in_range (str "ab,cd") (str ",") [] 3).
  - lia.
  - vm_compute. reflexivity.
Defined.

(** X3. The qualifier only matters for a text that begins with it:
    elsewhere [fieldLenEscaped] returns what [fieldLen] returns. *)
Theorem fieldLenEscaped_unqualified (s sep qual : gostring) :
  ¬ qual `prefix_of` s → fieldLenEscaped s sep qual = fieldLen s sep.
Proof.
  intros Hq. unfold fieldLenEscaped, fieldLen.
  rewrite (genFieldLen_plain s sep qual) by auto.
  by rewrite (genFieldLen_plain s sep []) by auto.
Qed.

Lemma fieldLenEscaped_unqualified_witness :
  fieldLenEscaped (str "ab,'c'") (str ",") (str "'") = fieldLen (str "ab,'c'") (str ",").
Proof.
  apply fieldLenEscaped_unqualified.
  intros [t Ht]. discriminate Ht.
Defined.

(** ** Round trips of the tokenizer *)

Lemma Join_cons (x : gostring) (l : list gostring) (sep : gostring) :
  l ≠ [] → Join (x :: l) sep = x ++ sep ++ Join l sep.
Proof. by destruct l. Qed.

Lemma cut_rejoin (s sep : gostring) (m : Z) :
  0 <= m → sep `prefix_of` drop (Z.to_nat m) s →
  sliceTo s m ++ sep ++ sliceFrom s (m + len sep) = s.
Proof.
  intros Hm [t Ht]. unfold sliceTo, sliceFrom, len.
  replace (Z.to_nat (m + Z.of_nat (length sep)))
    with (Z.to_nat m + length sep)%nat by lia.
  rewrite <- drop_drop, Ht, drop_app_length, <- Ht. apply take_drop.
Qed.

Lemma splitLoop_nonempty (n : nat) (s sep : gostring) :
  strings.splitLoop n s sep ≠ [].
Proof. destruct n; cbn [strings.splitLoop]; [done|]. by destruct (_ <? _). Qed.

Lemma Join_splitLoop (n : nat) (s sep : gostring) :
  Join (strings.splitLoop n s sep) sep = s.
Proof.
  revert s. induction n as [|n IH]; intros s; cbn [strings.splitLoop]; [done|].
  destruct (Z.ltb_spec (strings.Index s sep) 0) as [Hlt|Hge]; [done|].
  rewrite Join_cons by apply splitLoop_nonempty. rewrite IH.
  apply cut_rejoin; [done|].
  assert (strings.Index s sep ≠ -1) as Hne by lia.
  by destruct (Index_found _ _ Hne) as (_ & Hp & _).
Qed.

(** X4. With the qualifier off and a non-empty separator, joining the
    fields of a line by the separator gives the line back. *)
Theorem splitWithQual_join_off (a : Align) (s sep qual : gostring) :
  On (txtq a) = false → sep ≠ [] →
  ∃ words, splitWithQual a s sep qual = Some words ∧ Join words sep = s.
Proof.
  intros Hoff Hs. unfold splitWithQual. rewrite Hoff. cbn [negb].
  eexists. split; [done|]. destruct sep as [|c sep']; [done|].
  unfold strings.Split. apply Join_splitLoop.
Qed.

Lemma splitWithQual_join_off_witness :
  ∃ words, splitWithQual (NewAlign [] (str ",") qualOff) (str "a,,b,") (str ",") []
           = Some words
    ∧ Join words (str ",") = str "a,,b,".
Proof.
  apply splitWithQual_join_off; [reflexivity | discriminate].
Defined.

(** A field either runs to the end of the text or stops in front of a
    separator. *)
Lemma genFieldLen_cut (s sep qual : gostring) :
  genFieldLen s sep qual = len s
  ∨ sep `prefix_of` drop (Z.to_nat (genFieldLen s sep qual)) s.
Proof.
  destruct (decide (qual `prefix_of` s)) as [Hq|Hq].
  - rewrite genFieldLen_qualified by done.
    destruct (Z.eqb_spec (strings.Index s (qual ++ sep)) (-1)) as [E|E]; [by left|].
    right. destruct (Index_found _ _ E) as (H0 & [t Ht] & _).
    exists t. unfold len.
    replace (Z.to_nat (strings.Index s (qual ++ sep) + Z.of_nat (length qual)))
      with (Z.to_nat (strings.Index s (qual ++ sep)) + length qual)%nat by lia.
    rewrite <- drop_drop, Ht, <- !app_assoc. by rewrite drop_app_length.
  - rewrite genFieldLen_plain by auto.
    destruct (Z.eqb_spec (strings.Index s sep) (-1)) as [E|E]; [by left|].
    right. by destruct (Index_found _ _ E) as (_ & Hp & _).
Qed.

Lemma fieldsFrom_join (fuel : nat) (sep qual rest : gostring) :
  sep ≠ [] → (length rest ≤ fuel)%nat →
  let words := fieldsFrom fuel (fun r => genFieldLen r sep qual) sep rest in
  Join words sep = rest ∨ Join words sep ++ sep = rest.
Proof.
  intros Hs. revert rest. induction fuel as [|f IH]; intros rest Hl words.
  - destruct rest; [by left | simpl in Hl; lia].
  - destruct rest as [|c rest]; [by left|].
    subst words. cbn [fieldsFrom].
    pose proof (genFieldLen_range (c :: rest) sep qual) as Hr.
    pose proof (length_sliceFrom_step (c :: rest) sep
                  (genFieldLen (c :: rest) sep qual) ltac:(done) Hs ltac:(lia))
      as Hstep.
    destruct (genFieldLen_cut (c :: rest) sep qual) as [Hall|Hcut].
    + rewrite Hall, sliceTo_all.
      rewrite sliceFrom_ge by (pose proof (len_nonneg sep); lia).
      rewrite fieldsFrom_nil. by left.
    + pose proof (cut_rejoin _ _ _ (proj1 Hr) Hcut) as Hre.
      set (n := genFieldLen (c :: rest) sep qual) in *.
      set (next := sliceFrom (c :: rest) (n + len sep)) in *.
      destruct (IH next ltac:(cbn [length] in *; lia)) as [Hj|Hj];
        destruct next as [|d next'] eqn:En.
      * rewrite fieldsFrom_nil. right. cbn [Join].
        by rewrite app_nil_r in Hre.
      * destruct f as [|f']; [cbn [length] in *; lia|].
        rewrite Join_cons by done. left. by rewrite Hj.
      * rewrite fieldsFrom_nil. right. cbn [Join].
        by rewrite app_nil_r in Hre.
      * destruct f as [|f']; [cbn [length] in *; lia|].
        rewrite Join_cons by done. right.
        rewrite <- !app_assoc. by rewrite Hj.
Qed.

(** X5. With the qualifier on and a non-empty separator no byte of a
    line is lost except one final separator: the fields joined by the
    separator are the line, or the line without the separator that
    ends it. *)
Theorem splitWithQual_join_on (a : Align) (s sep qual : gostring) :
  On (txtq a) = true → sep ≠ [] →
  ∃ words, splitWithQual a s sep qual = Some words
    ∧ (Join words sep = s ∨ Join words sep ++ sep = s).
Proof.
  intros Hon Hs. unfold splitWithQual. rewrite Hon. cbn [negb].
  rewrite splitQualLoop_fields by (rewrite ?sliceFrom_0; done || lia).
  rewrite sliceFrom_0. eexists. split; [done|]. cbn [app].
  by apply fieldsFrom_join.
Qed.

Lemma splitWithQual_join_on_witness :
  ∃ words, splitWithQual (NewAlign [] (str ",") qualOn) (str "'a,b',c,") (str ",")
             (str "'")
           = Some words
    ∧ (Join words (str ",") = str "'a,b',c,"
       ∨ Join words (str ",") ++ str "," = str "'a,b',c,").
Proof.
  apply splitWithQual_join_on; [reflexivity | discriminate].
Defined.

Lemma AlignAlign_returns_witness :
  is_Some (@AlignAlign tableStringWidth
             (NewAlign [str "a,'b,c',"; []; str ",,"] (str ",") qualOn)).
Proof. apply AlignAlign_returns. discriminate. Defined.

(** ** The equations of [strings.Split] *)

Lemma len_pos_nonempty (sep : gostring) : sep ≠ [] → 0 < len sep.
Proof. destruct sep; [done|]. unfold len. simpl. lia. Qed.

Lemma countLoop_fuel (f1 f2 : nat) (s sub : gostring) :
  sub ≠ [] → (length s < f1)%nat → (length s < f2)%nat →
  strings.countLoop f1 s sub = strings.countLoop f2 s sub.
Proof.
  intros Hs. revert f2 s. induction f1 as [|f1 IH]; intros f2 s H1 H2; [lia|].
  destruct f2 as [|f2]; [lia|]. cbn [strings.countLoop].
  destruct (Z.eqb_spec (strings.Index s sub) (-1)) as [E|E]; [done|].
  pose proof (Index_found _ _ E) as Hf.
  pose proof (firstAt_bound _ _ _ Hf) as Hb. destruct Hf as (H0 & _ & _).
  pose proof (len_pos_nonempty sub Hs).
  assert (length (sliceFrom s (strings.Index s sub + len sub)) < length s)%nat.
  { unfold sliceFrom, len in *. rewrite length_drop. lia. }
  f_equal. apply IH; lia.
Qed.

Lemma Split_absent (s sep : gostring) :
  sep ≠ [] → strings.Index s sep = -1 → strings.Split s sep = [s].
Proof.
  intros Hs E. destruct sep as [|c sep']; [done|].
  unfold strings.Split, strings.Count. cbn [strings.countLoop]. by rewrite E.
Qed.

Lemma Split_found (s sep : gostring) :
  sep ≠ [] → strings.Index s sep ≠ -1 →
  strings.Split s sep
  = sliceTo s (strings.Index s sep)
    :: strings.Split (sliceFrom s (strings.Index s sep + len sep)) sep.
Proof.
  intros Hs E.
  pose proof (Index_found _ _ E) as Hf.
  pose proof (firstAt_bound _ _ _ Hf) as Hb. destruct Hf as (H0 & _ & _).
  pose proof (len_pos_nonempty sep Hs).
  set (s' := sliceFrom s (strings.Index s sep + len sep)).
  assert (length s' < length s)%nat as Hlt.
  { unfold s', sliceFrom, len in *. rewrite length_drop. lia. }
  assert (strings.Split s sep
          = strings.splitLoop
              (Z.to_nat (strings.countLoop (S (length s)) s sep)) s sep) as ->
    by (by destruct sep).
  cbn [strings.countLoop]. apply Z.eqb_neq in E as E'. rewrite E'. fold s'.
  pose proof (countLoop_nonneg (length s) s' sep).
  replace (Z.to_nat (1 + strings.countLoop (length s) s' sep))
    with (S (Z.to_nat (strings.countLoop (length s) s' sep))) by lia.
  cbn [strings.splitLoop].
  assert ((strings.Index s sep <? 0) = false) as -> by lia.
  fold s'. f_equal.
  assert (strings.Split s' sep
          = strings.splitLoop
              (Z.to_nat (strings.countLoop (S (length s')) s' sep)) s' sep) as ->
    by (by destruct sep).
  do 2 f_equal. apply countLoop_fuel; [done | lia | lia].
Qed.

Lemma Split_byte_trailing (c : ascii) (n : nat) (t : gostring) :
  (length t < n)%nat → last (strings.Split (t ++ [c]) [c]) = Some [].
Proof.
  revert t. induction n as [|n IH]; intros t Hl; [lia|].
  assert (strings.Index (t ++ [c]) [c] ≠ -1) as E.
  { intros E. apply Index_absent in E. apply (E (length t)).
    by rewrite drop_app_length. }
  pose proof (Index_found _ _ E) as Hf.
  pose proof (firstAt_bound _ _ _ Hf) as Hb. destruct Hf as (H0 & _ & _).
  rewrite Split_found by done.
  set (i := strings.Index (t ++ [c]) [c]) in *.
  assert (len (t ++ [c]) = len t + 1) as Hlen by (rewrite len_app; done).
  change (len [c]) with 1 in *.
  destruct (decide (i = len t)) as [Hi|Hi].
  - rewrite sliceFrom_ge by lia. by rewrite Split_nil.
  - assert (sliceFrom (t ++ [c]) (i + 1) = drop (Z.to_nat (i + 1)) t ++ [c]) as ->.
    { unfold sliceFrom. apply drop_app_le. unfold len in *. lia. }
    rewrite last_cons, IH; [done|].
    rewrite length_drop. unfold len in *. lia.
Qed.

(** X6. With the qualifier off and a one-byte separator, a line that
    ends with the separator has an empty last field. *)
Theorem splitWithQual_off_trailing_field (a : Align) (t qual : gostring) (c : ascii) :
  On (txtq a) = false →
  ∃ words, splitWithQual a (t ++ [c]) [c] qual = Some words
    ∧ last words = Some [].
Proof.
  intros Hoff. unfold splitWithQual. rewrite Hoff. cbn [negb].
  eexists. split; [done|]. apply (Split_byte_trailing c (S (length t))). lia.
Qed.

Lemma splitWithQual_off_trailing_field_witness :
  ∃ words, splitWithQual (NewAlign [] (str ",") qualOff) (str "a,b" ++ [","%char])
             [","%char] []
           = Some words
    ∧ last words = Some [].
Proof. apply splitWithQual_off_trailing_field. reflexivity. Defined.

(** ** The empty separator *)

Lemma scanLoop_empty_sep (a : Align) (input : list gostring) (counts : gmap Z Z)
    (acc : list gostring) (line : gostring) :
  sep a = [] → On (txtq a) = false → line ∈ input → line ≠ [] →
  scanLoop a input counts acc = None.
Proof.
  intros Hs Hoff Hin Hne. revert counts acc.
  induction input as [|l input IH]; intros counts acc.
  - by apply elem_of_nil in Hin.
  - cbn [scanLoop]. unfold measureLine. rewrite Hoff, Hs.
    destruct (decide (l = [])) as [->|Hl].
    + cbn [length measureLoop]. change (0 <? len []) with false.
      cbn [mbind option_bind]. apply IH.
      apply elem_of_cons in Hin as [->|Hin]; done.
    + by rewrite measureLoop_empty_sep.
Qed.

(** X8. With an empty separator and the qualifier off the measuring
    pass does not end as soon as one line is not empty: the cursor of
    [for start := 0; start < len(line);] never moves, whatever the
    number of iterations. *)
Theorem columnLength_empty_sep (a : Align) (line : gostring) :
  sep a = [] → On (txtq a) = false → line ∈ scanner a → line ≠ [] →
  columnLength a = None
  ∧ ∀ fuel columnNum counts,
      measureLoop fuel (fun s => fieldLen s (sep a)) line (sep a) 0 columnNum counts
      = None.
Proof.
  intros Hs Hoff Hin Hne. split.
  - unfold columnLength. by rewrite (scanLoop_empty_sep a _ _ _ line).
  - intros fuel columnNum counts. rewrite Hs. by apply measureLoop_empty_sep.
Qed.

Lemma columnLength_empty_sep_witness :
  columnLength (NewAlign [[]; str "ab"] [] qualOff) = None.
Proof.
  apply (columnLength_empty_sep (NewAlign [[]; str "ab"] [] qualOff) (str "ab")).
  - reflexivity.
  - reflexivity.
  - apply elem_of_cons. right. apply elem_of_cons. by left.
  - discriminate.
Defined.

(** ** Measuring, then padding *)

Lemma columnLength_upper (a a' : Align) (line : gostring) (words : list gostring)
    (c : nat) (w : gostring) :
  sep a ≠ [] → positiveWidths (columnCounts a) → columnLength a = Some a' →
  line ∈ scanner a →
  splitWithQual a line (sep a) (Qualifier (txtq a)) = Some words →
  words !! c = Some w →
  lines a' = scanner a ∧ len w <= mapGet (columnCounts a') (Z.of_nat c).
Proof.
  intros Hs Hp E Hin Ew El.
  destruct (scanLoop_spec a (scanner a) (columnCounts a) [] Hs Hp) as (cs & E' & _ & M).
  unfold columnLength in E. rewrite E' in E. cbn [mbind option_bind] in E.
  injection E as <-. cbn [lines columnCounts]. split; [done|].
  rewrite M, <- (widthAt_lookup _ _ _ El), <- (rowWidth_split a line words _ Hs Ew).
  pose proof (maxWidth_upper a (scanner a) line (Z.of_nat c) Hin). lia.
Qed.

(** X9. After the measuring pass of a fresh [Align] (non-empty
    separator) no field that [export] will split off a stored line is
    longer than the width recorded for its column, so the pad length
    [countPadding] gives it is never negative. *)
Theorem measured_padding_nonneg `{RuneWidth} (a a' : Align) (line : gostring)
    (words : list gostring) (c : nat) (w : gostring) :
  sep a ≠ [] → columnCounts a = ∅ → columnLength a = Some a' →
  line ∈ lines a' →
  splitWithQual a' line (sep a') (Qualifier (txtq a')) = Some words →
  words !! c = Some w →
  len w <= mapGet (columnCounts a') (Z.of_nat c)
  ∧ 0 <= countPadding w (mapGet (columnCounts a') (Z.of_nat c)).
Proof.
  intros Hs Hempty E Hin Ew El.
  assert (positiveWidths (columnCounts a)) as Hp.
  { rewrite Hempty. intros k v. by rewrite lookup_empty. }
  assert (sep a' = sep a ∧ txtq a' = txtq a ∧ lines a' = scanner a) as (Es & Et & Eln).
  { unfold columnLength in E. destruct (scanLoop_spec a (scanner a) (columnCounts a) []
      Hs Hp) as (cs & E' & _ & _). rewrite E' in E. cbn [mbind option_bind] in E.
    by injection E as <-. }
  assert (splitWithQual a line (sep a) (Qualifier (txtq a)) = Some words) as Ew'.
  { rewrite <- Ew, Es, Et. unfold splitWithQual. by rewrite Et. }
  rewrite Eln in Hin.
  destruct (columnLength_upper a a' line words c w Hs Hp E Hin Ew' El) as [_ Hle].
  split; [done|]. rewrite countPadding_eq. lia.
Qed.

Lemma measured_padding_nonneg_witness :
  len (str "bb") <= mapGet {[ 0 := 3; 1 := 2 ]} 1
  ∧ 0 <= @countPadding tableStringWidth (str "bb") (mapGet {[ 0 := 3; 1 := 2 ]} 1).
Proof.
  set (a := NewAlign [str "a,bb"; str "ccc"] (str ",") qualOff).
  set (a' := {| scanner := []; writer := []; sep := str ","; sepOut := str ",";
                columnCounts := {[ 0 := 3; 1 := 2 ]}; txtq := qualOff;
                padOpts := {| justification := JustifyLeft; ColumnOverride := ∅;
                              Pad := 1 |};
                filter := []; lines := [str "a,bb"; str "ccc"]; padder := [] |}).
  assert (sep a ≠ []) as H1 by discriminate.
  assert (columnCounts a = ∅) as H2 by reflexivity.
  assert (columnLength a = Some a') as H3 by (vm_compute; reflexivity).
  assert (str "a,bb" ∈ lines a') as H4 by (apply elem_of_cons; by left).
  assert (splitWithQual a' (str "a,bb") (sep a') (Qualifier (txtq a'))
          = Some [str "a"; str "bb"]) as H5 by reflexivity.
  assert ([str "a"; str "bb"] !! 1%nat = Some (str "bb")) as H6 by reflexivity.
  exact (@measured_padding_nonneg tableStringWidth a a' (str "a,bb")
           [str "a"; str "bb"] 1%nat (str "bb") H1 H2 H3 H4 H5 H6).
Defined.

Lemma len_replicate (n : Z) (c : ascii) : len (replicate (Z.to_nat n) c) = Z.max 0 n.
Proof. unfold len. rewrite length_replicate. lia. Qed.

Lemma applyPadding_body_len (padder original surroundingPad : gostring)
    (columnNum padLength : Z) (just : Justification) :
  just = JustifyLeft ∨ just = JustifyRight ∨ just = JustifyCenter →
  len (applyPadding padder original surroundingPad columnNum padLength just)
  = len padder + len (if columnNum >? 0 then surroundingPad else [])
    + len original + Z.max 0 padLength + len surroundingPad.
Proof.
  intros Hj. unfold applyPadding.
  rewrite applyPadding_lead, applyPadding_trail. unfold fillWithPadding.
  destruct Hj as [->|[->| ->]];
    cbn [JustifyCenter JustifyLeft JustifyRight Z.eqb Pos.eqb].
  - rewrite !len_app, len_replicate. lia.
  - rewrite !len_app, len_replicate. lia.
  - destruct (Z.gtb_spec padLength 2) as [Hgt|Hle].
    + rewrite !len_app, !len_replicate.
      pose proof (Z.quot_pos padLength 2 ltac:(lia) ltac:(lia)).
      pose proof (Z.quot_le_upper_bound padLength 2 padLength ltac:(lia) ltac:(lia)).
      lia.
    + rewrite !len_app, len_replicate. lia.
Qed.

(** X10. The number of bytes a field is rendered in. Under Left,
    Right or Center justification the buffer grows by the leading
    surrounding pad (from the second column on), the field, the fill
    ([padLength] bytes, none when it is negative) and the trailing
    surrounding pad. *)
Theorem applyPadding_len (padder original surroundingPad : gostring)
    (columnNum padLength : Z) (just : Justification) :
  just = JustifyLeft ∨ just = JustifyRight ∨ just = JustifyCenter →
  len (applyPadding padder original surroundingPad columnNum padLength just)
  = len padder + (if columnNum >? 0 then len surroundingPad else 0)
    + len original + Z.max 0 padLength + len surroundingPad.
Proof.
  intros Hj. rewrite applyPadding_body_len by done.
  destruct (columnNum >? 0); [done|]. change (len []) with 0. lia.
Qed.

Lemma applyPadding_len_witness :
  len (applyPadding [] (str "ab") (str " ") 1 5 JustifyCenter) = 0 + 1 + 2 + 5 + 1.
Proof.
  apply (applyPadding_len [] (str "ab") (str " ") 1 5 JustifyCenter).
  right. right. reflexivity.
Defined.



(** X12. A justification that is none of the three constants (the
    zero value of [PaddingOpts.Justification], say) matches no case of
    the switch: the field itself is not written, only the surrounding
    pads are. *)
Theorem applyPadding_unknown_justification (padder original surroundingPad : gostring)
    (columnNum padLength : Z) (just : Justification) :
  just ≠ JustifyLeft → just ≠ JustifyRight → just ≠ JustifyCenter →
  applyPadding padder original surroundingPad columnNum padLength just
  = padder ++ (if columnNum >? 0 then surroundingPad else []) ++ surroundingPad.
Proof.
  intros HL HR HC. unfold applyPadding.
  rewrite applyPadding_lead, applyPadding_trail.
  rewrite (proj2 (Z.eqb_neq just JustifyLeft)) by done.
  rewrite (proj2 (Z.eqb_neq just JustifyRight)) by done.
  rewrite (proj2 (Z.eqb_neq just JustifyCenter)) by done.
  by rewrite <- app_assoc.
Qed.

Lemma applyPadding_unknown_justification_witness :
  applyPadding [] (str "text") (str " ") 1 3 0 = str "  ".
Proof.
  apply (applyPadding_unknown_justification [] (str "text") (str " ") 1 3 0);
    discriminate.
Defined.

Lemma padLoop_replicate (n : nat) (sb : gostring) :
  padLoop n sb = sb ++ replicate n padchar.
Proof.
  revert sb. induction n as [|n IH]; intros sb; cbn [padLoop replicate].
  - by rewrite app_nil_r.
  - rewrite IH. by rewrite <- app_assoc.
Qed.

(** X13. [leadingPad] and [trailingPad] append [padLen] pad characters
    to the builder, none for a negative [padLen]: both do to a
    builder what [fillWithPadding] does to the padder. *)
Theorem leadingPad_trailingPad (sb : gostring) (padLen : Z) :
  leadingPad sb padLen = sb ++ replicate (Z.to_nat padLen) padchar
  ∧ trailingPad sb padLen = leadingPad sb padLen
  ∧ leadingPad sb padLen = fillWithPadding sb padLen
  ∧ len (leadingPad sb padLen) = len sb + Z.max 0 padLen.
Proof.
  unfold leadingPad, trailingPad, fillWithPadding. rewrite padLoop_replicate.
  repeat split. rewrite len_app, len_replicate. done.
Qed.

(** ** The width table as a function of the input *)

Lemma positiveWidths_ext (m1 m2 : gmap Z Z) :
  positiveWidths m1 → positiveWidths m2 →
  (∀ k, mapGet m1 k = mapGet m2 k) → m1 = m2.
Proof.
  intros P1 P2 Hget. apply map_eq. intros k. specialize (Hget k).
  unfold mapGet in Hget.
  destruct (m1 !! k) as [v1|] eqn:E1; destruct (m2 !! k) as [v2|] eqn:E2;
    simpl in Hget; try done.
  - by subst.
  - specialize (P1 _ _ E1). lia.
  - specialize (P2 _ _ E2). lia.
Qed.

Lemma widthsOf_spec (input : list gostring) (sep : gostring) (qu : TextQualifier) :
  sep ≠ [] →
  ∃ cs, widthsOf input sep qu = Some cs ∧ positiveWidths cs
    ∧ ∀ k, mapGet cs k = maxWidth (NewAlign [] sep qu) input k.
Proof.
  intros Hs.
  destruct (scanLoop_spec (NewAlign input sep qu) input ∅ [] Hs) as (cs & E & P & M).
  { intros k v. by rewrite lookup_empty. }
  exists cs. split; [|split; [done|]].
  - unfold widthsOf, columnLength. cbn [scanner columnCounts NewAlign].
    rewrite E. done.
  - intros k. rewrite M. unfold mapGet at 1. rewrite lookup_empty. cbn [default].
    pose proof (maxWidth_nonneg (NewAlign input sep qu) input k).
    change (maxWidth (NewAlign [] sep qu) input k)
      with (maxWidth (NewAlign input sep qu) input k). lia.
Qed.

Lemma maxWidth_perm (a : Align) (l1 l2 : list gostring) (k : Z) :
  l1 ≡ₚ l2 → maxWidth a l1 k = maxWidth a l2 k.
Proof.
  unfold maxWidth. induction 1 as [|x l l' _ IH|x y l|l l' l'' _ IH1 _ IH2];
    cbn [fmap list_fmap foldr]; [done | by rewrite IH | lia | congruence].
Qed.

Lemma maxWidth_app (a : Align) (l1 l2 : list gostring) (k : Z) :
  maxWidth a (l1 ++ l2) k = Z.max (maxWidth a l1 k) (maxWidth a l2 k).
Proof.
  pose proof (maxWidth_nonneg a l2 k) as H2. unfold maxWidth in *.
  induction l1 as [|x l1 IH]; cbn [app fmap list_fmap foldr]; [lia|].
  rewrite IH. lia.
Qed.

(** X14. The width table does not depend on the order of the lines:
    two inputs that are permutations of each other are measured to
    the same table. *)
Theorem widthsOf_permutation (input input' : list gostring) (sep : gostring)
    (qu : TextQualifier) :
  sep ≠ [] → input ≡ₚ input' →
  widthsOf input sep qu = widthsOf input' sep qu
  ∧ is_Some (widthsOf input sep qu).
Proof.
  intros Hs Hperm.
  destruct (widthsOf_spec input sep qu Hs) as (c1 & E1 & P1 & M1).
  destruct (widthsOf_spec input' sep qu Hs) as (c2 & E2 & P2 & M2).
  rewrite E1, E2. split; [|done]. f_equal.
  apply positiveWidths_ext; [done | done |].
  intros k. rewrite M1, M2. by apply maxWidth_perm.
Qed.

Lemma widthsOf_permutation_witness :
  widthsOf [str "a,bb"; str "ccc"] (str ",") qualOff
  = widthsOf [str "ccc"; str "a,bb"] (str ",") qualOff
  ∧ is_Some (widthsOf [str "a,bb"; str "ccc"] (str ",") qualOff).
Proof.
  apply widthsOf_permutation; [discriminate|]. apply perm_swap.
Defined.

(** X15. Measuring more lines never narrows a column: the width of a
    column over two inputs put together is the larger of its widths
    over each. *)
Theorem widthsOf_app (l1 l2 : list gostring) (sep : gostring) (qu : TextQualifier) :
  sep ≠ [] →
  ∃ c1 c2 c12,
    widthsOf l1 sep qu = Some c1 ∧ widthsOf l2 sep qu = Some c2
    ∧ widthsOf (l1 ++ l2) sep qu = Some c12
    ∧ ∀ k, mapGet c12 k = Z.max (mapGet c1 k) (mapGet c2 k).
Proof.
  intros Hs.
  destruct (widthsOf_spec l1 sep qu Hs) as (c1 & E1 & _ & M1).
  destruct (widthsOf_spec l2 sep qu Hs) as (c2 & E2 & _ & M2).
  destruct (widthsOf_spec (l1 ++ l2) sep qu Hs) as (c12 & E12 & _ & M12).
  exists c1, c2, c12. repeat split; try done.
  intros k. rewrite M12, M1, M2. apply maxWidth_app.
Qed.

Lemma widthsOf_app_witness :
  ∃ c1 c2 c12,
    widthsOf [str "a,bb"] (str ",") qualOff = Some c1
    ∧ widthsOf [str "ccc"] (str ",") qualOff = Some c2
    ∧ widthsOf ([str "a,bb"] ++ [str "ccc"]) (str ",") qualOff = Some c12
    ∧ ∀ k, mapGet c12 k = Z.max (mapGet c1 k) (mapGet c2 k).
Proof. apply widthsOf_app. discriminate. Defined.

(** ** [Align] without input *)

(** X16. When the scanner yields no line ([Scan] returns false at
    once: an empty input), [Align] returns for every separator,
    writes nothing, leaves the width table and the padder as they
    are, and empties the stored lines, whatever was stored before. *)
Theorem AlignAlign_no_input `{RuneWidth} (a : Align) :
  scanner a = [] →
  ∃ a', AlignAlign a = Some a'
    ∧ writer a' = writer a ∧ columnCounts a' = columnCounts a
    ∧ lines a' = [] ∧ padder a' = padder a.
Proof.
  intros Hsc. unfold AlignAlign, columnLength. rewrite Hsc.
  cbn [scanLoop mbind option_bind]. unfold export.
  cbn [lines linesLoop mbind option_bind writer padder padOpts UpdatePadding].
  eexists. split; [reflexivity|]. done.
Qed.

Lemma AlignAlign_no_input_witness :
  ∃ a', @AlignAlign tableStringWidth
          (withLines (withBuffers (NewAlign [] [] qualOff) (str "a ,") [])
             [str "old"])
        = Some a'
    ∧ writer a' = str "a ," ∧ lines a' = [].
Proof.
  destruct (@AlignAlign_no_input tableStringWidth
              (withLines (withBuffers (NewAlign [] [] qualOff) (str "a ,") [])
                 [str "old"]) eq_refl)
    as (a' & E & Hw & _ & Hl & _).
  exists a'. split; [exact E|]. split; [exact Hw | exact Hl].
Defined.

Lemma splitWithQual_no_separator_witness :
  splitWithQual (NewAlign [] (str ",") qualOn) (str "'ab") (str ",") (str "'")
  = Some [str "'ab"].
Proof.
  apply splitWithQual_no_separator; [discriminate | discriminate |].
  apply Index_absent. reflexivity.
Defined.

Lemma wordsLoop_skipped_last_witness :
  ∃ pre, (@wordsLoop tableStringWidth
            (FilterColumns (NewAlign [] (str ",") qualOff) [1])
            (str " ") (0 + len [str "a"; str "b"]) [str "a"; str "b"] 0 0 [] []).1
         = pre ++ [newline].
Proof.
  apply (@wordsLoop_skipped_last tableStringWidth
           (FilterColumns (NewAlign [] (str ",") qualOff) [1])
           (str " ") [str "a"; str "b"] 0 0 [] []).
  - discriminate.
  - reflexivity.
  - reflexivity.
Defined.

Lemma wordsLoop_filter_1_3_witness :
  @wordsLoop tableStringWidth (FilterColumns (NewAlign [] (str ",") qualOff) [1; 3])
    (str " ") 3 [str "a"; str "b"; str "c"] 0 0 [] []
  = (str "a , c " ++ [newline], []).
Proof.
  apply (@wordsLoop_filter_1_3 tableStringWidth
           (FilterColumns (NewAlign [] (str ",") qualOff) [1; 3])
           (str " ") (str "a") (str "b") (str "c") [] []).
  - reflexivity.
  - vm_compute. discriminate.
Defined.

(** ** The rows [export] writes *)

(** X17. The padder after a row: empty as soon as one field of the
    row passes the filter (it is reset after the field that is
    rendered), and exactly as the row found it when the filter skips
    every field or the row has none. *)
Theorem wordsLoop_padder_after_row `{RuneWidth} (a : Align) (surroundingPad : gostring)
    (nwords : Z) (words : list gostring) (columnNum tempColumn : Z) (w p : gostring) :
  (wordsLoop a surroundingPad nwords words columnNum tempColumn w p).2
  = if rowRetains a columnNum words then [] else p.
Proof.
  revert columnNum tempColumn w p.
  induction words as [|word rest IH]; intros columnNum tempColumn w p; [done|].
  cbn [wordsLoop rowRetains]. unfold retains.
  destruct ((filterLen a >? 0) && negb (contains (filter a) (columnNum + 1)));
    cbn [negb orb].
  - apply IH.
  - destruct (_ || _); [done|]. rewrite IH. by destruct (rowRetains _ _ _).
Qed.







(** X20. A row without a filter. As long as no padded field is as
    many bytes long as the 1-based number of its column, every field
    of the row is written, in order, padded for its column, and each
    one, the last included, is followed by the output separator; no
    line terminator is written. *)
Theorem wordsLoop_unfiltered `{RuneWidth} (a : Align) (surroundingPad : gostring)
    (nwords : Z) (words : list gostring) (columnNum tempColumn : Z) (w p : gostring) :
  filter a = [] →
  (∀ (i : nat) padded,
     paddedFields a surroundingPad words columnNum tempColumn p !! i = Some padded →
     len padded ≠ columnNum + Z.of_nat i + 1) →
  (wordsLoop a surroundingPad nwords words columnNum tempColumn w p).1
  = w ++ concat ((fun f => f ++ sepOut a)
                   <$> paddedFields a surroundingPad words columnNum tempColumn p).
Proof.
  intros Hf. revert columnNum tempColumn w p.
  induction words as [|word rest IH]; intros columnNum tempColumn w p Hno.
  - cbn. by rewrite app_nil_r.
  - cbn [wordsLoop paddedFields fmap list_fmap concat]. unfold filterLen. rewrite Hf.
    change (len [] >? 0) with false. cbn [andb orb].
    set (padded := applyPadding p word surroundingPad tempColumn
                     (countPadding word (mapGet (columnCounts a) columnNum))
                     (fieldJustification (padOpts a) columnNum)) in *.
    pose proof (Hno 0%nat padded eq_refl) as H0.
    assert ((columnNum + 1 =? len padded) = false) as -> by lia.
    rewrite IH.
    + by rewrite <- !app_assoc.
    + intros i f Hi. specialize (Hno (S i) f Hi). lia.
Qed.

Lemma wordsLoop_unfiltered_witness :
  (@wordsLoop tableStringWidth (NewAlign [] (str ",") qualOff) (str " ") 2
     [str "aa"; str "bb"] 0 0 [] []).1
  = [] ++ concat ((fun f => f ++ str ",")
                    <$> @paddedFields tableStringWidth
                          (NewAlign [] (str ",") qualOff) (str " ")
                          [str "aa"; str "bb"] 0 0 []).
Proof.
  apply (@wordsLoop_unfiltered tableStringWidth (NewAlign [] (str ",") qualOff)
           (str " ") 2 [str "aa"; str "bb"] 0 0 [] []).
  - reflexivity.
  - intros i padded Hi. destruct i as [|[|i]].
    + injection Hi as <-. vm_compute. discriminate.
    + injection Hi as <-. vm_compute. discriminate.
    + discriminate Hi.
Defined.

(** X21. Qualifier containment. With the qualifier on, a line that
    starts with a qualified field (the qualifier, a body, the
    qualifier again, a separator) whose closing qualifier and
    separator do not occur earlier in the line is split into that
    field, the separators inside its body included, and the fields of
    the rest of the line. *)
Theorem splitWithQual_qualified_field (a : Align) (sep qual body rest : gostring) :
  On (txtq a) = true → sep ≠ [] → qual ≠ [] →
  firstAt (qual ++ sep) ((qual ++ body ++ qual) ++ sep ++ rest) (len (qual ++ body)) →
  ∃ words,
    splitWithQual a rest sep qual = Some words
    ∧ splitWithQual a ((qual ++ body ++ qual) ++ sep ++ rest) sep qual
      = Some ((qual ++ body ++ qual) :: words).
Proof.
  intros Hon Hs Hq Hfirst. unfold splitWithQual. rewrite Hon. cbn [negb].
  rewrite !splitQualLoop_fields by (rewrite ?sliceFrom_0; done || lia).
  rewrite !sliceFrom_0. eexists. split; [reflexivity|]. cbn [app]. f_equal.
  set (field := qual ++ body ++ qual). set (line := field ++ sep ++ rest).
  assert (genFieldLen line sep qual = len field) as Hcount.
  { rewrite genFieldLen_qualified.
    - rewrite (Index_firstAt line (qual ++ sep) _ Hfirst).
      assert ((len (qual ++ body) =? -1) = false) as ->
        by (pose proof (len_nonneg (qual ++ body)); lia).
      unfold field. rewrite !len_app. lia.
    - exists (body ++ qual ++ sep ++ rest). unfold line, field.
      by rewrite <- !app_assoc. }
  destruct line as [|c line'] eqn:El.
  { destruct qual; [done | discriminate El]. }
  cbn [length fieldsFrom]. rewrite Hcount. rewrite <- El. f_equal.
  - unfold sliceTo, len, line. rewrite Nat2Z.id. apply take_app_length.
  - assert (sliceFrom line (len field + len sep) = rest) as ->.
    { unfold sliceFrom, len, line.
      replace (Z.to_nat (Z.of_nat (length field) + Z.of_nat (length sep)))
        with (length field + length sep)%nat by lia.
      rewrite <- drop_drop, drop_app_length. apply drop_app_length. }
    apply fieldsFrom_fuel; [done | intros r; apply genFieldLen_range | | lia].
    assert (length line = S (length line')) as Hl by (by rewrite El).
    subst line. rewrite !length_app in Hl.
    pose proof (len_pos_nonempty sep Hs). unfold len in *. lia.
Qed.

Lemma splitWithQual_qualified_field_witness :
  ∃ words,
    splitWithQual (NewAlign [] (str ",") qualOn) (str "c") (str ",") (str "'")
    = Some words
    ∧ splitWithQual (NewAlign [] (str ",") qualOn)
        ((str "'" ++ str "a,b" ++ str "'") ++ str "," ++ str "c") (str ",") (str "'")
      = Some ((str "'" ++ str "a,b" ++ str "'") :: words).
Proof.
  apply splitWithQual_qualified_field.
  - reflexivity.
  - discriminate.
  - discriminate.
  - apply (Index_found ((str "'" ++ str "a,b" ++ str "'") ++ str "," ++ str "c")
             (str "'" ++ str ",")).
    vm_compute. discriminate.
Defined.
